(** * mt-rnn: the data-preparation and training-orchestration pipeline of
    [train.py], embedded in Rocq.

    Conventions of the embedding
    - a Python 2 [str] is a [string] (a sequence of 8-bit characters);
    - a Python [int] is a [Z]; lengths and list positions are [nat];
    - a [dict] is a [gmap]; a lookup that misses raises [KeyError];
    - the learning rate and the coverage ratio, floats that the script
      only halves, divides once and compares, are rationals [Q];
    - the validation loss, which the model returns, is a [float]: a
      rational, an infinity or NaN, compared as Python compares floats;
    - a [float32] cell of an embedding matrix is its 32-bit pattern;
    - a call that can raise returns an [outcome]. *)

From Stdlib Require Import Ascii String QArith Qround.
From stdpp Require Import base option list numbers strings gmap fin_maps.

Local Open Scope string_scope.
Local Open Scope Z_scope.
Local Open Scope list_scope.

(** ** Outcomes of a call *)

Inductive exn : Type :=
  | TypeError | KeyError | IndexError | ValueError | AssertionError
  | UnicodeDecodeError.

Inductive outcome (A : Type) : Type :=
  | Ok (a : A)          (* the call returns [a] *)
  | Raise (e : exn)     (* the call raises [e] *)
  | Hang.               (* the call never returns *)
Arguments Ok {A} a.
Arguments Raise {A} e.
Arguments Hang {A}.

#[global] Instance outcome_ret : MRet outcome := λ A a, Ok a.
#[global] Instance outcome_bind : MBind outcome := λ A B k m,
  match m with
  | Ok a => k a
  | Raise e => Raise e
  | Hang => Hang
  end.

Definition from_opt {A} (e : exn) (o : option A) : outcome A :=
  match o with Some a => Ok a | None => Raise e end.

(** ** Strings: [strip], [split()], [split("|||")] *)

Fixpoint lstrip (s : string) : string :=
  match s with
  | String c s' => if Ascii.is_space c then lstrip s' else s
  | EmptyString => EmptyString
  end.

Fixpoint rstrip (s : string) : string :=
  match s with
  | String c s' =>
      match rstrip s' with
      | EmptyString => if Ascii.is_space c then EmptyString else String c EmptyString
      | r => String c r
      end
  | EmptyString => EmptyString
  end.

(** [s.strip()]: leading and trailing whitespace removed. *)
Definition strip (s : string) : string := rstrip (lstrip s).

(** [s.split()]: the maximal runs of non-whitespace characters. *)
Definition split (s : string) : list string := String.words s.

(** [s.split("|||")]: the pieces between non-overlapping occurrences of
    the delimiter, scanned from the left; [cur] is the piece being read,
    most recent character first. *)
Fixpoint split_bars_go (cur : string) (s : string) : list string :=
  match s with
  | String "|"%char (String "|"%char (String "|"%char rest)) =>
      String.rev cur :: split_bars_go EmptyString rest
  | String c s' => split_bars_go (String c cur) s'
  | EmptyString => [String.rev cur]
  end.
Definition split_bars (s : string) : list string := split_bars_go EmptyString s.

(** ** Python list helpers *)

(** [l[:t]] for any integer [t]: a negative bound counts from the end. *)
Definition slice_to {A} (t : Z) (l : list A) : list A :=
  if decide (0 ≤ t) then take (Z.to_nat t) l
  else take (length l - Z.to_nat (- t)) l.

(** [l[t:]]. *)
Definition slice_from {A} (t : Z) (l : list A) : list A :=
  if decide (0 ≤ t) then drop (Z.to_nat t) l
  else drop (length l - Z.to_nat (- t)) l.

(** [reduce(lambda x, y: x + y, l)], which has no initial value. *)
Definition reduce_add (l : list Z) : outcome Z :=
  match l with
  | [] => Raise TypeError
  | x :: xs => Ok (foldl Z.add x xs)
  end.

(** [sorted(items, key=operator.itemgetter(1), reverse=True)]: a stable
    sort on the count, largest first; items of equal count keep their
    relative order. *)
Fixpoint insert_desc (x : string * Z) (l : list (string * Z)) : list (string * Z) :=
  match l with
  | [] => [x]
  | y :: l' => if decide (y.2 ≤ x.2) then x :: y :: l'
               else y :: insert_desc x l'
  end.

Definition sorted_desc (l : list (string * Z)) : list (string * Z) :=
  foldr insert_desc [] l.

(** ** VocabularyBuilder: [parseCorpus] *)

(** [freq.items()] / [freq.values()]: Python 2 enumerates a dict in an
    order fixed by its hash table; [map_to_list] enumerates a [gmap] in an
    order that is just as arbitrary.  The proofs below use only that every
    item occurs exactly once. *)
Definition dict_items (freq : gmap string Z) : list (string * Z) :=
  map_to_list freq.
Definition dict_values (freq : gmap string Z) : list Z :=
  (dict_items freq).*2.

(** [freq[word] = freq.get(word, 0) + 1] *)
Definition count_word (freq : gmap string Z) (word : string) : gmap string Z :=
  <[word := default 0 (freq !! word) + 1]> freq.

Definition count_line (freq : gmap string Z) (line : string) : gmap string Z :=
  foldl count_word freq (split (strip line)).

Definition count_corpus (iFile : list string) : gmap string Z :=
  foldl count_line ∅ iFile.

Record vocabs := {
  vocabID : Z;
  vocab : gmap string Z;     (* word -> id *)
  rVocab : gmap Z string     (* id -> word *)
}.

Definition UNK : string := "UNK".

Definition vocabs_init : vocabs :=
  {| vocabID := 0; vocab := {[UNK := 0]}; rVocab := {[0 := UNK]} |}.

(** One turn of [for item in freqSort]. *)
Definition add_item (v : vocabs) (item : string * Z) : vocabs :=
  let id := vocabID v + 1 in
  {| vocabID := id;
     vocab := <[item.1 := id]> (vocab v);
     rVocab := <[id := item.1]> (rVocab v) |}.

Definition parseCorpus (iFile : list string) (pruneThreshold : Z)
  : outcome (Q * gmap string Z * gmap Z string) :=
  let freq := count_corpus iFile in
  wordCounts ← reduce_add (dict_values freq) ;
  let freqSort := sorted_desc (dict_items freq) in
  let freqSort := slice_to pruneThreshold freqSort in
  prunedWordCounts ← reduce_add (freqSort.*2) ;
  let v := foldl add_item vocabs_init freqSort in
  Ok ((inject_Z prunedWordCounts / inject_Z wordCounts)%Q, vocab v, rVocab v).

(** ** EmbeddingAligner: [readWordVectors] *)

(** A [float32] cell is kept as its bit pattern; [np.fromstring] reads
    four bytes per cell, least significant first. *)
Definition f32 := Z.

Definition byte_val (c : ascii) : Z := Z.of_N (N_of_ascii c).

Definition f32_of_bytes (a b c d : ascii) : f32 :=
  byte_val a + 256 * (byte_val b + 256 * (byte_val c + 256 * byte_val d)).

(** The bit pattern of the [float32] 1.0 (0x3F800000). *)
Definition f32_one : f32 := 1065353216.

(** [np.fromstring(data, np.float32)]; a length that is not a multiple of
    the cell size raises [ValueError]. *)
Fixpoint np_fromstring (data : string) : outcome (list f32) :=
  match data with
  | EmptyString => Ok []
  | String a (String b (String c (String d rest))) =>
      v ← np_fromstring rest; Ok (f32_of_bytes a b c d :: v)
  | _ => Raise ValueError
  end.

(** [np.ones((dim))], stored into a [float32] row. *)
Definition np_ones (dim : Z) : list f32 := replicate (Z.to_nat dim) f32_one.

Fixpoint str_take (n : nat) (s : string) : string :=
  match n, s with
  | S n', String c s' => String c (str_take n' s')
  | _, _ => EmptyString
  end.

Fixpoint str_drop (n : nat) (s : string) : string :=
  match n, s with
  | S n', String c s' => str_drop n' s'
  | _, _ => s
  end.

(** [fin.read(n)]: at most [n] bytes, all that is left when [n] is
    negative; the result is the data and the rest of the stream. *)
Definition read (n : Z) (fin : string) : string * string :=
  if decide (n < 0) then (fin, EmptyString)
  else (str_take (Z.to_nat n) fin, str_drop (Z.to_nat n) fin).

(** [fin.readline()]: up to and including the first newline. *)
Fixpoint readline (fin : string) : string * string :=
  match fin with
  | EmptyString => (EmptyString, EmptyString)
  | String c fin' =>
      if decide (c = "010"%char) then (String c EmptyString, fin')
      else let '(l, r) := readline fin' in (String c l, r)
  end.

(** [int(s)] on a token: an optional sign and decimal digits. *)
Fixpoint digits (acc : Z) (s : string) : option Z :=
  match s with
  | EmptyString => Some acc
  | String c s' =>
      match Ascii.is_nat c with
      | Some d => digits (10 * acc + Z.of_nat d) s'
      | None => None
      end
  end.

Definition unsigned_int (s : string) : option Z :=
  match s with
  | EmptyString => None
  | _ => digits 0 s
  end.

Definition int (s : string) : outcome Z :=
  from_opt ValueError
    match s with
    | String "-"%char s' => Z.opp <$> unsigned_int s'
    | String "+"%char s' => unsigned_int s'
    | _ => unsigned_int s
    end.

(** [vocab_size, vector_size = map(int, header.split())] *)
Definition parse_header (header : string) : outcome (Z * Z) :=
  ns ← mapM int (split header);
  match ns with
  | [vocab_size; vector_size] => Ok (vocab_size, vector_size)
  | _ => Raise ValueError
  end.

(** The inner [while True] loop: characters are appended to [word] until
    a space is read.  At the end of the stream [fin.read(1)] returns the
    empty string for ever, so the loop does not end: [None]. *)
Fixpoint read_word (word : string) (fin : string) : option (string * string) :=
  match fin with
  | EmptyString => None
  | String ch fin' =>
      if decide (ch = " "%char) then Some (word, fin')
      else read_word (word +:+ String ch EmptyString) fin'
  end.

Section Embeddings.
(** [word.decode('utf8')]: the codec is Python's.  A unicode string is
    kept as its UTF-8 bytes, so decoding returns the bytes themselves
    when they are well-formed and raises otherwise; which byte strings
    are well-formed is left to the codec. *)
Variable utf8_valid : string → bool.

Definition decode_utf8 (word : string) : outcome string :=
  if utf8_valid word then Ok word else Raise UnicodeDecodeError.

(** [for line_number in xrange(vocab_size)], [n] turns left. *)
Fixpoint read_vectors (n : nat) (binary_len : Z) (fin : string)
    (vectorHash : gmap string (list f32)) : outcome (gmap string (list f32)) :=
  match n with
  | O => Ok vectorHash
  | S n' =>
      match read_word EmptyString fin with
      | None => Hang
      | Some (word, fin) =>
          let '(data, fin) := read binary_len fin in
          vector ← np_fromstring data;
          key ← decode_utf8 word;
          let '(_, fin) := read 1 fin in
          read_vectors n' binary_len fin (<[key := vector]> vectorHash)
      end
  end.

(** Lines 40-59: the embedding file read into [vectorHash]. *)
Definition read_vectorHash (vectorBin : string) (dim : Z)
  : outcome (gmap string (list f32)) :=
  let '(header, fin) := readline vectorBin in
  '(vocab_size, vector_size) ← parse_header header;
  if decide (vector_size = dim) then
    let binary_len := 4 * vector_size in
    read_vectors (Z.to_nat vocab_size) binary_len fin ∅
  else Raise AssertionError.

(** [embeddings[i] = value]: numpy broadcasts a one-cell value over the
    row and refuses any other length that is not the row's. *)
Definition assign_row (dim : nat) (value : list f32) : outcome (list f32) :=
  if decide (length value = dim) then Ok value
  else match value with
       | [x] => Ok (replicate dim x)
       | _ => Raise ValueError
       end.

(** One turn of [for i in range(len(vocab))]. *)
Definition embed_id (vectorHash : gmap string (list f32)) (vocab : gmap Z string)
    (dim : Z) (st : Z * list (list f32)) (i : nat) : outcome (Z * list (list f32)) :=
  let '(unkCount, embeddings) := st in
  w ← from_opt KeyError (vocab !! Z.of_nat i);
  let unkCount :=
    if decide (vectorHash !! w = None) then unkCount + 1 else unkCount in
  row ← assign_row (Z.to_nat dim) (default (np_ones dim) (vectorHash !! w));
  Ok (unkCount, <[i := row]> embeddings).

Fixpoint embed_ids (vectorHash : gmap string (list f32)) (vocab : gmap Z string)
    (dim : Z) (st : Z * list (list f32)) (ixs : list nat)
  : outcome (Z * list (list f32)) :=
  match ixs with
  | [] => Ok st
  | i :: ixs' =>
      st' ← embed_id vectorHash vocab dim st i;
      embed_ids vectorHash vocab dim st' ixs'
  end.

(** Lines 61-73.  [np.empty] leaves the cells uninitialised; every row
    is overwritten before the matrix is returned, so the initial content
    (zero bits here) is never seen.  A negative [dim] is refused by
    [np.empty]. *)
Definition build_embeddings (vectorHash : gmap string (list f32))
    (vocab : gmap Z string) (dim : Z) : outcome (Z * list (list f32)) :=
  if decide (dim < 0) then Raise ValueError
  else
    let embeddings := replicate (size vocab) (replicate (Z.to_nat dim) 0) in
    embed_ids vectorHash vocab dim (-1, embeddings) (seq 0 (size vocab)).

Definition readWordVectors (vectorBin : string) (vocab : gmap Z string) (dim : Z)
  : outcome (Z * list (list f32)) :=
  vectorHash ← read_vectorHash vectorBin dim;
  build_embeddings vectorHash vocab dim.
End Embeddings.

(** ** PhrasePairExtractor: [getPhrasePairs] *)

(** Two's-complement wrap-around to [w] bits. *)
Definition wrap (w : Z) (z : Z) : Z := (z + 2 ^ (w - 1)) `mod` 2 ^ w - 2 ^ (w - 1).

(** [np.asarray(ids).astype('int32')]: the conversion keeps the low 32
    bits of the machine integers that numpy makes of the ids. *)
Definition astype_int32 (ids : list Z) : list Z := wrap 32 <$> ids.

(** [np.sum] of an [int32] array accumulates in the 64-bit platform
    integer. *)
Definition np_sum (a : list Z) : Z := wrap 64 (foldr Z.add 0 a).

(** [[voc.get(w, 0) for w in seg.strip().split()]] as an [int32] array. *)
Definition phrase_ids (voc : gmap string Z) (seg : string) : list Z :=
  astype_int32 ((λ w, default 0 (voc !! w)) <$> split (strip seg)).

(** One index of [emb[ids]]: numpy counts a negative index from the end
    and raises [IndexError] outside [-n, n). *)
Definition np_row {A} (emb : list A) (i : Z) : outcome A :=
  let n := Z.of_nat (length emb) in
  if decide (0 ≤ i) then from_opt IndexError (emb !! Z.to_nat i)
  else if decide (- n ≤ i) then from_opt IndexError (emb !! Z.to_nat (n + i))
  else Raise IndexError.

(** [emb[ids]]: the rows picked by an index array. *)
Fixpoint np_rows {A} (emb : list A) (ids : list Z) : outcome (list A) :=
  match ids with
  | [] => Ok []
  | i :: ids' =>
      row ← np_row emb i;
      rows ← np_rows emb ids';
      Ok (row :: rows)
  end.

(** A training example: (source phrase vectors, target phrase vectors,
    target phrase ids). *)
Definition example : Type := list (list f32) * list (list f32) * list Z.

(** The body of [for line in tTable]: [Ok None] is [continue], [Ok (Some
    p)] is [phrasePairs.append(p)]. *)
Definition phrase_pair (sVocab tVocab : gmap string Z)
    (sEmbeddings tEmbeddings : list (list f32)) (line : string)
  : outcome (option example) :=
  let line := split_bars (strip line) in
  seg0 ← from_opt IndexError (line !! 0%nat);
  let sPhrase := phrase_ids sVocab seg0 in
  seg1 ← from_opt IndexError (line !! 1%nat);
  let tPhrase := phrase_ids tVocab seg1 in
  if decide (np_sum sPhrase = 0 ∨ np_sum tPhrase = 0) then Ok None
  else
    sVecs ← np_rows sEmbeddings sPhrase;
    tVecs ← np_rows tEmbeddings tPhrase;
    Ok (Some (sVecs, tVecs, tPhrase)).

Fixpoint phrase_pairs_from (sVocab tVocab : gmap string Z)
    (sEmbeddings tEmbeddings : list (list f32)) (phrasePairs : list example)
    (tTable : list string) : outcome (list example) :=
  match tTable with
  | [] => Ok phrasePairs
  | line :: tTable' =>
      p ← phrase_pair sVocab tVocab sEmbeddings tEmbeddings line;
      phrase_pairs_from sVocab tVocab sEmbeddings tEmbeddings
        (match p with Some x => phrasePairs ++ [x] | None => phrasePairs end)
        tTable'
  end.

Definition getPhrasePairs (tTable : list string) (sVocab tVocab : gmap string Z)
    (sEmbeddings tEmbeddings : list (list f32)) : outcome (list example) :=
  phrase_pairs_from sVocab tVocab sEmbeddings tEmbeddings [] tTable.

(** Whether [d] occurs in [s]. *)
Fixpoint contains (d s : string) : bool :=
  match s with
  | EmptyString => String.prefix d s
  | String _ s' => String.prefix d s || contains d s'
  end.

(** ** Partitioner: [shuffle], [getPartitions], [minibatch] *)

Section Partitioner.
(** Python's [random] module is a collaborator: [rng] is the state of
    its generator, [rng_seed n] the state after [random.seed(n)], which
    depends on [n] alone, and [rng_bits g] a draw of 53 random bits with
    the state that follows.  [random.random()] is that draw scaled to
    [0, 1). *)
Variable rng : Type.
Variable rng_seed : Z → rng.
Variable rng_bits : rng → Z * rng.

Definition random_random (g : rng) : Q * rng :=
  let '(b, g') := rng_bits g in
  (Qmake (b `mod` 2 ^ 53) (2 ^ 53), g').

(** [x[i], x[j] = x[j], x[i]] *)
Definition swap {A} (x : list A) (i j : nat) : outcome (list A) :=
  xj ← from_opt IndexError (x !! j);
  xi ← from_opt IndexError (x !! i);
  Ok (<[j := xi]> (<[i := xj]> x)).

(** [random.shuffle]: [for i in reversed(xrange(1, len(x)))], where
    [k] counts the turns left and [i = k]. *)
Fixpoint shuffle_from {A} (k : nat) (x : list A) (g : rng) : outcome (list A * rng) :=
  match k with
  | O => Ok (x, g)
  | S k' =>
      let '(r, g') := random_random g in
      let j := Qfloor (r * inject_Z (Z.of_nat k + 1)) in
      x' ← swap x k (Z.to_nat j);
      shuffle_from k' x' g'
  end.

(** [shuffle(l, seed)]: the list and the generator are both shared
    state; the call returns their new contents. *)
Definition shuffle {A} (l : list A) (seed : Z) (g : rng) : outcome (list A * rng) :=
  let g := rng_seed seed in
  shuffle_from (length l - 1) l g.

(** [int(0.8 * n)], computed exactly. *)
Definition split_point (n : nat) : Z := Qfloor ((8 # 10) * inject_Z (Z.of_nat n)).

(** [getPartitions]: the shuffled list (the argument is shuffled in
    place), the generator, and the two slices. *)
Definition getPartitions {A} (phrasePairs : list A) (seed : Z) (g : rng)
  : outcome (list A * rng * (list A * list A)) :=
  '(phrasePairs, g) ← shuffle phrasePairs seed g;
  let k := split_point (length phrasePairs) in
  Ok (phrasePairs, g, (slice_to k phrasePairs, slice_from k phrasePairs)).
End Partitioner.

(** [l[i:i+bs] for i in xrange(0, len(l), bs)], [n] bounding the number
    of batches. *)
Fixpoint batches {A} (n : nat) (bs : nat) (l : list A) : list (list A) :=
  match n, l with
  | _, [] => []
  | O, _ => []
  | S n', _ => take bs l :: batches n' bs (drop bs l)
  end.

(** [minibatch(l, bs)]: [xrange] refuses a zero step and is empty for a
    negative one. *)
Definition minibatch {A} (l : list A) (bs : Z) : outcome (list (list A)) :=
  if decide (bs = 0) then Raise ValueError
  else if decide (bs < 0) then Ok []
  else Ok (batches (length l) (Z.to_nat bs) l).

(** ** ModelCheckpointer and TrainingLoop *)

(** The hyperparameters [s] that the script never changes. *)
Record hyper := {
  lr : Q;
  bs : Z;
  nhidden : Z;
  seed : Z;
  emb_dimension : Z;
  nepochs : Z;
  prune_t : Z
}.

(** The values of the script: learning rate 0.0827, batches of 1000,
    seed 324, 25 epochs. *)
Definition s_default : hyper :=
  {| lr := 827 # 10000; bs := 1000; nhidden := 500; seed := 324;
     emb_dimension := 50; nepochs := 25; prune_t := 5000 |}.

(** A Python float as the loop sees the losses: a number, an infinity or
    NaN. *)
Inductive float : Type :=
  | Fin (q : Q)
  | PosInf
  | NegInf
  | NaN.

(** [x < y] on floats: false whenever NaN is compared. *)
Definition float_lt (x y : float) : bool :=
  match x, y with
  | NaN, _ | _, NaN => false
  | _, NegInf => false
  | NegInf, _ => true
  | PosInf, _ => false
  | Fin a, PosInf => true
  | Fin a, Fin b => if Qlt_le_dec a b then true else false
  end.

(** [dev_nll < best_dev_nll] *)
Definition lt_best (dev_nll best_dev_nll : float) : bool :=
  float_lt dev_nll best_dev_nll.

(** [xrange(n)] *)
Definition xrange (n : Z) : list Z := Z.of_nat <$> seq 0 (Z.to_nat n).

Section Training.
Variable rng : Type.
Variable rng_seed : Z → rng.
Variable rng_bits : rng → Z * rng.

(** The model [rnn_encoder_decoder.RNNED] is a collaborator: [model] is
    its parameter state, [rnn_train] one call of [rnn.train(batch,
    clr)], [rnn_test] the average loss returned by [rnn.test(dev)]. *)
Variable model : Type.
Variable rnn_train : model → list example → Q → model.
Variable rnn_test : model → list example → float.

(** What [pickle.dump] writes. *)
Record bundle := {
  b_sVocab : gmap string Z;
  b_tVocab : gmap string Z;
  b_sEmbedding : list (list f32);
  b_tEmbedding : list (list f32);
  b_rnn : model
}.

Definition best_mdl (outDir : string) : string := outDir +:+ "/best.mdl".
Definition secondBest_mdl (outDir : string) : string := outDir +:+ "/secondBest.mdl".

(** [mv src dst 2>/dev/null]: nothing happens when [src] is missing. *)
Definition mv (src dst : string) (fs : gmap string bundle) : gmap string bundle :=
  match fs !! src with
  | Some b => <[dst := b]> (delete src fs)
  | None => fs
  end.

Definition saveModel (outDir : string) (sVocab tVocab : gmap string Z)
    (sEmbedding tEmbedding : list (list f32)) (rnn : model)
    (fs : gmap string bundle) : gmap string bundle :=
  let fs := mv (best_mdl outDir) (secondBest_mdl outDir) fs in
  <[best_mdl outDir :=
      {| b_sVocab := sVocab; b_tVocab := tVocab; b_sEmbedding := sEmbedding;
         b_tEmbedding := tEmbedding; b_rnn := rnn |}]> fs.

(** What the loop changes: the entries [clr], [ce], [be] of [s], the
    best loss, the model, the training list (shuffled in place), the
    random generator and the model files. *)
Record session := {
  clr : Q;
  ce : option Z;
  be : option Z;
  best_dev_nll : float;
  rnn : model;
  train : list example;
  gen : rng;
  files : gmap string bundle
}.

(** What the loop only reads. *)
Record setup := {
  s : hyper;
  outDir : string;
  s2idx : gmap string Z;
  t2idx : gmap string Z;
  sEmbeddings : list (list f32);
  tEmbeddings : list (list f32);
  dev : list example
}.

(** The state at [for e in xrange(s['nepochs'])]: [best_dev_nll = np.inf],
    [s['clr'] = s['lr']], and no entry [ce] or [be] in [s] yet. *)
Definition session_init (c : setup) (rnn0 : model) (train0 : list example)
    (g : rng) (fs : gmap string bundle) : session :=
  {| clr := lr (s c); ce := None; be := None; best_dev_nll := PosInf;
     rnn := rnn0; train := train0; gen := g; files := fs |}.

(** [for i, batch in enumerate(minibatch(train, s['bs'])): rnn.train(batch, s['clr'])] *)
Definition train_batches (m : model) (bl : list (list example)) (rate : Q) : model :=
  foldl (λ m batch, rnn_train m batch rate) m bl.

(** The validation loss measured in an epoch that ends in [st]. *)
Definition dev_nll_of (c : setup) (st : session) : float := rnn_test (rnn st) (dev c).

(** Lines 265-285: one epoch, up to the decay of the learning rate. *)
Definition epoch (c : setup) (e : Z) (st : session) : outcome session :=
  '(train', g') ← shuffle rng rng_seed rng_bits (train st) (seed (s c)) (gen st);
  bl ← minibatch train' (bs (s c));
  let rnn' := train_batches (rnn st) bl (clr st) in
  let dev_nll := rnn_test rnn' (dev c) in
  let '(best', be', fs') :=
    if lt_best dev_nll (best_dev_nll st)
    then (dev_nll, Some e,
          saveModel (outDir c) (s2idx c) (t2idx c) (sEmbeddings c)
            (tEmbeddings c) rnn' (files st))
    else (best_dev_nll st, be st, files st) in
  b ← from_opt KeyError be';
  let clr' := if decide (3 ≤ Z.abs (b - e)) then (clr st * (1 # 2))%Q else clr st in
  Ok {| clr := clr'; ce := Some e; be := be'; best_dev_nll := best';
        rnn := rnn'; train := train'; gen := g'; files := fs' |}.

(** [if s['clr'] < 1e-5: break] *)
Definition stops (st : session) : bool :=
  if Qlt_le_dec (clr st) (1 # 100000) then true else false.

(** The [for] loop over the epochs [es] still to run. *)
Fixpoint epochs (c : setup) (es : list Z) (st : session) : outcome session :=
  match es with
  | [] => Ok st
  | e :: es' =>
      st' ← epoch c e st;
      if stops st' then Ok st' else epochs c es' st'
  end.

(** Lines 262-287. *)
Definition training (c : setup) (rnn0 : model) (train0 : list example)
    (g : rng) (fs : gmap string bundle) : outcome session :=
  epochs c (xrange (nepochs (s c))) (session_init c rnn0 train0 g fs).

(** Lines 266-276 alone: the validation loss that an epoch started in
    [st] measures. *)
Definition epoch_dev_nll (c : setup) (st : session) : outcome float :=
  '(train', g') ← shuffle rng rng_seed rng_bits (train st) (seed (s c)) (gen st);
  bl ← minibatch train' (bs (s c));
  Ok (rnn_test (train_batches (rnn st) bl (clr st)) (dev c)).

(** The same loop, keeping the session at the end of every epoch it
    runs, first epoch first. *)
Fixpoint epochs_history (c : setup) (es : list Z) (st : session)
  : outcome (list session) :=
  match es with
  | [] => Ok []
  | e :: es' =>
      st' ← epoch c e st;
      if stops st' then Ok [st']
      else h ← epochs_history c es' st'; Ok (st' :: h)
  end.

Definition training_history (c : setup) (rnn0 : model) (train0 : list example)
    (g : rng) (fs : gmap string bundle) : outcome (list session) :=
  epochs_history c (xrange (nepochs (s c))) (session_init c rnn0 train0 g fs).
End Training.

Arguments Build_bundle {model}.
Arguments b_sVocab {model}.
Arguments b_tVocab {model}.
Arguments b_sEmbedding {model}.
Arguments b_tEmbedding {model}.
Arguments b_rnn {model}.
Arguments mv {model}.
Arguments saveModel {model}.
Arguments Build_session {rng model}.
Arguments clr {rng model}.
Arguments ce {rng model}.
Arguments be {rng model}.
Arguments best_dev_nll {rng model}.
Arguments rnn {rng model}.
Arguments train {rng model}.
Arguments gen {rng model}.
Arguments files {rng model}.
Arguments session_init {rng model}.
Arguments train_batches {model}.
Arguments dev_nll_of {rng model}.
Arguments stops {rng model}.
Arguments epoch {rng} rng_seed rng_bits {model} rnn_train rnn_test.
Arguments epoch_dev_nll {rng} rng_seed rng_bits {model} rnn_train rnn_test.
Arguments epochs {rng} rng_seed rng_bits {model} rnn_train rnn_test.
Arguments training {rng} rng_seed rng_bits {model} rnn_train rnn_test.
Arguments epochs_history {rng} rng_seed rng_bits {model} rnn_train rnn_test.
Arguments training_history {rng} rng_seed rng_bits {model} rnn_train rnn_test.

(** ** Vocabulary used to state the properties *)

(** The tokens of a corpus, in reading order. *)
Definition corpus_words (iFile : list string) : list string :=
  iFile ≫= (λ line, split (strip line)).

(** The sum of a list of counts. *)
Definition total (l : list Z) : Z := foldr Z.add 0 l.

(** The entries of the frequency table that survive pruning. *)
Definition kept_items (iFile : list string) (pruneThreshold : Z) : list (string * Z) :=
  slice_to pruneThreshold (sorted_desc (dict_items (count_corpus iFile))).

(** A vocabulary whose ids are 0, 1, ..., size - 1, as [parseCorpus]
    builds them. *)
Definition dense (vocab : gmap Z string) : Prop :=
  ∀ i : nat, (i < size vocab)%nat → is_Some (vocab !! Z.of_nat i).

(** Every vector read from the embedding file has [dim] cells. *)
Definition vectors_of_dim (dim : Z) (vectorHash : gmap string (list f32)) : Prop :=
  map_Forall (λ _ v, length v = Z.to_nat dim) vectorHash.

(** Whether the word of id [i] has no vector in the embedding file. *)
Definition is_miss (vectorHash : gmap string (list f32)) (vocab : gmap Z string)
    (i : nat) : bool :=
  match vocab !! Z.of_nat i with
  | Some w => bool_decide (vectorHash !! w = None)
  | None => false
  end.

(** The number of ids among [ixs] whose word has no vector. *)
Definition misses (vectorHash : gmap string (list f32)) (vocab : gmap Z string)
    (ixs : list nat) : Z :=
  Z.of_nat (length (filter (λ i, is_miss vectorHash vocab i = true) ixs)).

(** A small embedding file: two words, "w" and "x", of two cells each. *)
Definition vectors_example : string :=
  "2 2" +:+ String "010" ("w abcdefgh" +:+ String "010" ("x ijklmnop" +:+ String "010" "")).

(** A vocabulary of three ids; "zz" has no vector in [vectors_example]. *)
Definition vocab_example : gmap Z string := {[0 := UNK; 1 := "w"; 2 := "zz"]}.

(** The ids of a phrase by direct lookup of each token, an unknown token
    giving 0. *)
Definition lookup_ids (voc : gmap string Z) (seg : string) : list Z :=
  (λ w, default 0 (voc !! w)) <$> split (strip seg).

(** The rows of [emb] at the positions [ids]. *)
Definition gather (emb : list (list f32)) (ids : list Z) : list (list f32) :=
  (λ i, default [] (emb !! Z.to_nat i)) <$> ids.

Definition all_zero (ids : list Z) : Prop := Forall (λ i, i = 0) ids.

(** What a well-formed phrase-table line contributes, in the words of the
    specification: nothing when the source ids or the target ids are all
    zero, otherwise the source rows, the target rows and the target ids. *)
Definition spec_phrase_pair (sVocab tVocab : gmap string Z)
    (sEmbeddings tEmbeddings : list (list f32)) (line : string) : option example :=
  match split_bars (strip line) with
  | seg0 :: seg1 :: _ =>
      let sIds := lookup_ids sVocab seg0 in
      let tIds := lookup_ids tVocab seg1 in
      if decide (all_zero sIds ∨ all_zero tIds) then None
      else Some (gather sEmbeddings sIds, gather tEmbeddings tIds, tIds)
  | _ => None
  end.

(** The ids of a vocabulary are [int32] values that are not negative and
    each has a row in the embedding matrix, as has id 0. *)
Definition vocab_fits (voc : gmap string Z) (emb : list (list f32)) : Prop :=
  (0 < length emb)%nat ∧
  map_Forall (λ _ i, 0 ≤ i < 2 ^ 31 ∧ i < Z.of_nat (length emb)) voc.

(** Every segment of a line has fewer than 2^32 tokens, so that their ids
    cannot overflow the 64-bit sum. *)
Definition sides_short (line : string) : Prop :=
  Forall (λ seg, Z.of_nat (length (split (strip seg))) < 2 ^ 32)
    (split_bars (strip line)).

(** A run of [n] bars. *)
Fixpoint bars (n : nat) : string :=
  match n with O => EmptyString | S n' => String "|" (bars n') end.

(** A small phrase table with its vocabularies and one-cell embeddings:
    the first line is kept, the second has no known token, the third has
    an empty target side. *)
Definition sVocab_example : gmap string Z := {[UNK := 0; "a" := 1; "b" := 2]}.
Definition tVocab_example : gmap string Z := {[UNK := 0; "c" := 1]}.
Definition sEmb_example : list (list f32) := [[10]; [11]; [12]].
Definition tEmb_example : list (list f32) := [[20]; [21]].
Definition table_example : list string := ["a q ||| c"; "x y ||| z"; "a |||"].

(** A toy run of the training loop: a generator that counts its draws, a
    model that counts its [train] calls, and a validation loss that is
    lowest after the second call. *)
Definition toy_seed (n : Z) : Z := n.
Definition toy_bits (g : Z) : Z * Z := (g * 2 ^ 51, g + 1).
Definition toy_train (m : nat) (batch : list example) (rate : Q) : nat := S m.
Definition toy_test (m : nat) (examples : list example) : float :=
  Fin (inject_Z (Z.abs (Z.of_nat m - 2))).
(** A model whose validation loss is never a number, and one that gives
    the validation set probability 0. *)
Definition nan_test (m : nat) (examples : list example) : float := NaN.
Definition inf_test (m : nat) (examples : list example) : float := PosInf.
(** A model whose loss is NaN once, after its second batch. *)
Definition nan_once_test (m : nat) (examples : list example) : float :=
  if decide (m = 2%nat) then NaN else Fin (inject_Z (Z.abs (Z.of_nat m - 3))).
Definition toy_setup : setup :=
  {| s := s_default; outDir := "data/1.tiny";
     s2idx := sVocab_example; t2idx := tVocab_example;
     sEmbeddings := sEmb_example; tEmbeddings := tEmb_example;
     dev := [([[11]], [[21]], [1])] |}.
Definition toy_train_set : list example :=
  [([[11]; [10]], [[21]], [1]); ([[12]], [[21]], [1])].

(** * Properties *)

(** ** Outcomes *)

Lemma bind_Ok {A B} (m : outcome A) (k : A → outcome B) b :
  m ≫= k = Ok b ↔ ∃ a, m = Ok a ∧ k a = Ok b.
Proof.
  destruct m as [a|e|]; simpl; split; try (intros [a' [? ?]]); try discriminate.
  - eauto.
  - by simplify_eq.
Qed.

Lemma from_opt_Ok {A} e (o : option A) a : from_opt e o = Ok a ↔ o = Some a.
Proof. destruct o; simpl; split; intros; by simplify_eq. Qed.

(** ** VocabularyBuilder *)

Lemma total_app l k : total (l ++ k) = total l + total k.
Proof. induction l as [|x l IH]; simpl; [done|]. rewrite IH. lia. Qed.

Lemma total_perm l k : l ≡ₚ k → total l = total k.
Proof. induction 1; simpl; lia. Qed.

Lemma foldl_add x l : foldl Z.add x l = x + total l.
Proof.
  revert x. induction l as [|y l IH]; intros x; simpl; [lia|]. rewrite IH. lia.
Qed.

Lemma reduce_add_cons x l : reduce_add (x :: l) = Ok (total (x :: l)).
Proof. simpl. by rewrite foldl_add. Qed.

Lemma reduce_add_total l : l ≠ [] → reduce_add l = Ok (total l).
Proof. destruct l; [done|]. intros _. apply reduce_add_cons. Qed.

Lemma insert_desc_perm x l : insert_desc x l ≡ₚ x :: l.
Proof.
  induction l as [|y l IH]; simpl; [done|].
  case_decide; [done|]. rewrite IH. apply Permutation_swap.
Qed.

Lemma sorted_desc_perm l : sorted_desc l ≡ₚ l.
Proof.
  induction l as [|x l IH]; simpl; [done|].
  rewrite insert_desc_perm. by rewrite IH.
Qed.

Lemma slice_to_take {A} t (l : list A) : ∃ n, slice_to t l = take n l.
Proof. unfold slice_to. case_decide; eauto. Qed.

Lemma slice_to_nonneg {A} t (l : list A) :
  0 ≤ t → slice_to t l = take (Z.to_nat t) l.
Proof. unfold slice_to. intros. by rewrite decide_True. Qed.

Lemma corpus_words_cons line iFile :
  corpus_words (line :: iFile) = split (strip line) ++ corpus_words iFile.
Proof. done. Qed.

Lemma count_lines_words freq iFile :
  foldl count_line freq iFile = foldl count_word freq (corpus_words iFile).
Proof.
  revert freq. induction iFile as [|line iFile IH]; intros freq; [done|].
  rewrite corpus_words_cons, foldl_app. simpl. by rewrite IH.
Qed.

Lemma count_corpus_words iFile :
  count_corpus iFile = foldl count_word ∅ (corpus_words iFile).
Proof. apply count_lines_words. Qed.

Lemma count_words_dom (freq : gmap string Z) ws w :
  is_Some (foldl count_word freq ws !! w) ↔ is_Some (freq !! w) ∨ w ∈ ws.
Proof.
  revert freq. induction ws as [|x ws IH]; intros freq; simpl.
  - rewrite elem_of_nil. tauto.
  - rewrite IH, elem_of_cons. unfold count_word.
    destruct (decide (x = w)) as [->|Hne].
    + rewrite lookup_insert_eq. split; [intros _; right; by left|].
      intros _. left. by eexists.
    + rewrite lookup_insert_ne by done. split.
      * intros [?|?]; [by left|right; by right].
      * intros [?|[?|?]]; [by left|congruence|by right].
Qed.

Lemma count_words_positive (freq : gmap string Z) ws :
  map_Forall (λ _ c, 1 ≤ c) freq →
  map_Forall (λ _ c, 1 ≤ c) (foldl count_word freq ws).
Proof.
  revert freq. induction ws as [|x ws IH]; intros freq Hf; simpl; [done|].
  apply IH. unfold count_word. apply map_Forall_insert_2; [|done].
  destruct (freq !! x) as [c|] eqn:E; simpl; [|lia].
  specialize (Hf _ _ E). simpl in Hf. lia.
Qed.

Lemma dict_values_insert (freq : gmap string Z) w c :
  total (dict_values (<[w := c]> freq))
  = total (dict_values freq) - default 0 (freq !! w) + c.
Proof.
  unfold dict_values, dict_items.
  destruct (freq !! w) as [c0|] eqn:E; simpl.
  - rewrite <-(insert_delete_eq freq).
    rewrite (total_perm _ _ (fmap_Permutation snd _ _
      (map_to_list_insert (delete w freq) w c (lookup_delete_eq freq w)))).
    rewrite <-(total_perm _ _ (fmap_Permutation snd _ _
      (map_to_list_delete freq w c0 E))).
    csimpl. lia.
  - rewrite (total_perm _ _ (fmap_Permutation snd _ _
      (map_to_list_insert freq w c E))).
    csimpl. lia.
Qed.

Lemma count_words_total (freq : gmap string Z) ws :
  total (dict_values (foldl count_word freq ws))
  = total (dict_values freq) + Z.of_nat (length ws).
Proof.
  revert freq. induction ws as [|x ws IH]; intros freq; simpl length; simpl foldl.
  - lia.
  - rewrite IH. unfold count_word. rewrite dict_values_insert. lia.
Qed.

Lemma count_corpus_total iFile :
  total (dict_values (count_corpus iFile)) = Z.of_nat (length (corpus_words iFile)).
Proof.
  rewrite count_corpus_words, count_words_total.
  unfold dict_values, dict_items. by rewrite map_to_list_empty.
Qed.

Lemma count_corpus_lookup iFile w :
  is_Some (count_corpus iFile !! w) ↔ w ∈ corpus_words iFile.
Proof.
  rewrite count_corpus_words, count_words_dom, lookup_empty.
  split; [intros [[? ?]|?]; [done|done]|eauto].
Qed.

Lemma count_corpus_positive iFile w c :
  count_corpus iFile !! w = Some c → 1 ≤ c.
Proof.
  intros E. rewrite count_corpus_words in E.
  by apply (count_words_positive ∅ _ (map_Forall_empty _) _ _ E).
Qed.

Lemma dict_items_nil iFile :
  dict_items (count_corpus iFile) = [] ↔ corpus_words iFile = [].
Proof.
  unfold dict_items. rewrite map_to_list_empty_iff. split.
  - intros E. destruct (corpus_words iFile) as [|w ws] eqn:Ew; [done|].
    assert (is_Some (count_corpus iFile !! w)) as [c Hc].
    { apply count_corpus_lookup. rewrite Ew. left. }
    rewrite E, lookup_empty in Hc. done.
  - intros E. by rewrite count_corpus_words, E.
Qed.

(** What the loop [for item in freqSort] builds from items with distinct
    words: the word at position [k] gets id [k + 1] in both tables,
    [rVocab] keeps "UNK" at id 0, and [vocab] keeps "UNK" at id 0 unless
    "UNK" is one of the words, which then moves to its position. *)
Lemma add_items_spec (l : list (string * Z)) :
  NoDup (l.*1) →
  let v := foldl add_item vocabs_init l in
  vocabID v = Z.of_nat (length l) ∧
  (∀ w i, vocab v !! w = Some i ↔
     (w = UNK ∧ i = 0 ∧ UNK ∉ l.*1) ∨
     ∃ k : nat, l.*1 !! k = Some w ∧ i = Z.of_nat k + 1) ∧
  (∀ i w, rVocab v !! i = Some w ↔
     (i = 0 ∧ w = UNK) ∨ ∃ k : nat, l.*1 !! k = Some w ∧ i = Z.of_nat k + 1) ∧
  size (rVocab v) = S (length l).
Proof.
  induction l as [|[w0 c0] l IH] using rev_ind; intros Hnd v.
  - subst v. simpl. split; [done|]. split; [|split].
    + intros w i. rewrite lookup_singleton_Some. split.
      * intros [<- <-]. left. split; [done|]. split; [done|]. apply not_elem_of_nil.
      * intros [(-> & -> & _)|(k & Hk & _)]; [done|]. by rewrite lookup_nil in Hk.
    + intros i w. rewrite lookup_singleton_Some. split.
      * intros [<- <-]. by left.
      * intros [[-> ->]|(k & Hk & _)]; [done|]. by rewrite lookup_nil in Hk.
    + apply map_size_singleton.
  - rewrite fmap_app in Hnd. simpl in Hnd.
    apply NoDup_app in Hnd as (Hnd & Hfresh & _).
    destruct IH as (Hid & Hv & Hr & Hsz); [done|].
    assert (w0 ∉ l.*1) as Hw0.
    { intros Hin. apply (Hfresh _ Hin). left. }
    assert (length (l.*1) = length l) as Hlen by apply length_fmap.
    subst v. rewrite foldl_snoc. set (v := foldl add_item vocabs_init l) in *.
    unfold add_item; simpl. rewrite Hid, length_app. simpl.
    split; [lia|]. split; [|split].
    + intros w i. rewrite fmap_app. simpl. destruct (decide (w = w0)) as [->|Hne].
      * rewrite lookup_insert_eq. split.
        -- intros [= <-]. right. exists (length l). split; [|done].
           rewrite lookup_app_r by lia. by rewrite Hlen, Nat.sub_diag.
        -- intros [(-> & _ & Hno)|(k & Hk & ->)].
           ++ exfalso. apply Hno, elem_of_app. right. left.
           ++ apply lookup_app_Some in Hk as [Hk|[Hge Hk]].
              ** exfalso. apply Hw0. by eapply list_elem_of_lookup_2.
              ** apply list_lookup_singleton_Some in Hk as [Hk _].
                 do 2 f_equal. lia.
      * rewrite lookup_insert_ne by done. rewrite Hv. split.
        -- intros [(-> & -> & Hno)|(k & Hk & ->)].
           ++ left. split; [done|]. split; [done|].
              rewrite elem_of_app, list_elem_of_singleton. intros [?|?]; [done|congruence].
           ++ right. exists k. split; [|done]. by apply lookup_app_l_Some.
        -- intros [(-> & -> & Hno)|(k & Hk & ->)].
           ++ left. split; [done|]. split; [done|].
              intros Hin. apply Hno, elem_of_app. by left.
           ++ right. exists k. split; [|done].
              apply lookup_app_Some in Hk as [Hk|[_ Hk]]; [done|].
              apply list_lookup_singleton_Some in Hk as [_ Hk]. simpl in Hk. congruence.
    + intros i w. rewrite fmap_app. simpl.
      destruct (decide (i = Z.of_nat (length l) + 1)) as [->|Hne].
      * rewrite lookup_insert_eq. split.
        -- intros [= <-]. right. exists (length l). split; [|done].
           rewrite lookup_app_r by lia. by rewrite Hlen, Nat.sub_diag.
        -- intros [[? _]|(k & Hk & Hi)]; [lia|].
           assert (k = length l) as -> by lia.
           rewrite lookup_app_r in Hk by lia.
           rewrite Hlen, Nat.sub_diag in Hk. simpl in Hk. congruence.
      * rewrite lookup_insert_ne by done. rewrite Hr. split.
        -- intros [?|(k & Hk & ->)]; [by left|right]. exists k. split; [|done].
           by apply lookup_app_l_Some.
        -- intros [?|(k & Hk & ->)]; [by left|right]. exists k. split; [|done].
           apply lookup_app_Some in Hk as [Hk|[Hge Hk]]; [done|].
           apply list_lookup_singleton_Some in Hk as [Hk _]. lia.
    + rewrite map_size_insert_None; [lia|].
      destruct (rVocab v !! (Z.of_nat (length l) + 1)) as [w|] eqn:E; [|done].
      apply Hr in E as [[? _]|(k & Hk & Hi)]; [lia|].
      apply lookup_lt_Some in Hk. lia.
Qed.

(** [vocab] has an entry for "UNK" and one for each word. *)
Lemma add_items_size (l : list (string * Z)) :
  (size (vocab (foldl add_item vocabs_init l)) ≤ S (length l))%nat.
Proof.
  induction l as [|[w0 c0] l IH] using rev_ind.
  - simpl. by rewrite map_size_singleton.
  - rewrite foldl_snoc, length_app.
    set (v := foldl add_item vocabs_init l) in *. unfold add_item; simpl.
    destruct (vocab v !! w0) as [i|] eqn:E.
    + rewrite map_size_insert_Some by done. lia.
    + rewrite map_size_insert_None by done. lia.
Qed.

Lemma kept_items_sublist iFile t :
  kept_items iFile t `sublist_of` sorted_desc (dict_items (count_corpus iFile)).
Proof.
  unfold kept_items. destruct (slice_to_take t (sorted_desc (dict_items (count_corpus iFile))))
    as [n ->]. apply sublist_take.
Qed.

Lemma kept_items_elem iFile t w c :
  (w, c) ∈ kept_items iFile t → count_corpus iFile !! w = Some c.
Proof.
  intros Hin. apply elem_of_map_to_list.
  eapply elem_of_Permutation_proper; [symmetry; apply sorted_desc_perm|].
  eapply sublist_subseteq; [apply kept_items_sublist|done].
Qed.

Lemma kept_items_NoDup iFile t : NoDup ((kept_items iFile t).*1).
Proof.
  apply (sublist_NoDup _ ((sorted_desc (dict_items (count_corpus iFile))).*1)).
  - rewrite sorted_desc_perm. apply NoDup_fst_map_to_list.
  - apply fmap_sublist, kept_items_sublist.
Qed.

Lemma kept_items_words iFile t w :
  w ∈ (kept_items iFile t).*1 → w ∈ corpus_words iFile.
Proof.
  intros ([w' c] & -> & Hin)%list_elem_of_fmap.
  apply count_corpus_lookup. apply kept_items_elem in Hin. by eexists.
Qed.

Lemma kept_items_length iFile t :
  0 ≤ t → Z.of_nat (length (kept_items iFile t)) ≤ t.
Proof.
  intros Ht. unfold kept_items. rewrite slice_to_nonneg by done.
  rewrite length_take. lia.
Qed.

Lemma total_nonneg l : Forall (λ c, 0 ≤ c) l → 0 ≤ total l.
Proof. induction 1; simpl; lia. Qed.

Lemma total_positive l : l ≠ [] → Forall (λ c, 1 ≤ c) l → 1 ≤ total l.
Proof.
  intros Hne Hl. destruct Hl as [|c l Hc Hl]; [done|]. simpl.
  assert (0 ≤ total l); [|lia].
  apply total_nonneg. eapply Forall_impl; [done|]. simpl. lia.
Qed.

Lemma dict_values_positive iFile :
  Forall (λ c, 1 ≤ c) (dict_values (count_corpus iFile)).
Proof.
  apply Forall_forall. intros c ([w c'] & -> & Hin)%list_elem_of_fmap.
  apply elem_of_map_to_list in Hin. by eapply count_corpus_positive.
Qed.

Lemma kept_items_total iFile t :
  total ((kept_items iFile t).*2) ≤ total (dict_values (count_corpus iFile)).
Proof.
  unfold kept_items, dict_values.
  set (l := dict_items (count_corpus iFile)).
  destruct (slice_to_take t (sorted_desc l)) as [n ->].
  rewrite <-(total_perm _ _ (fmap_Permutation snd _ _ (sorted_desc_perm l))).
  rewrite <-(take_drop n (sorted_desc l)) at 2.
  rewrite fmap_app, total_app.
  assert (0 ≤ total ((drop n (sorted_desc l)).*2)); [|lia].
  apply total_nonneg, Forall_forall. intros c ([w c'] & -> & Hin)%list_elem_of_fmap.
  apply subseteq_drop in Hin.
  assert ((w, c') ∈ l) as Hl.
  { eapply elem_of_Permutation_proper; [symmetry; apply sorted_desc_perm|done]. }
  apply elem_of_map_to_list, count_corpus_positive in Hl. simpl. lia.
Qed.

Lemma kept_items_nonempty iFile t :
  corpus_words iFile ≠ [] → 1 ≤ t → kept_items iFile t ≠ [].
Proof.
  intros Hw Ht. unfold kept_items. rewrite slice_to_nonneg by lia.
  assert (sorted_desc (dict_items (count_corpus iFile)) ≠ []) as Hs.
  { intros E. apply Hw, dict_items_nil. apply Permutation_nil_r.
    rewrite <-E. symmetry. apply sorted_desc_perm. }
  destruct (sorted_desc _) as [|x l]; [done|].
  destruct (Z.to_nat t) as [|n] eqn:En; [lia|done].
Qed.

Lemma parseCorpus_unfold iFile t :
  parseCorpus iFile t =
    if decide (kept_items iFile t = []) then Raise TypeError
    else
      let v := foldl add_item vocabs_init (kept_items iFile t) in
      Ok ((inject_Z (total ((kept_items iFile t).*2))
           / inject_Z (total (dict_values (count_corpus iFile))))%Q,
          vocab v, rVocab v).
Proof.
  assert (dict_values (count_corpus iFile) = [] → kept_items iFile t = []) as Hk.
  { intros E%fmap_nil_inv. apply sublist_nil_r.
    pose proof (kept_items_sublist iFile t) as Hs. by rewrite E in Hs. }
  unfold parseCorpus. fold (kept_items iFile t).
  destruct (decide (dict_values (count_corpus iFile) = [])) as [E|E].
  - rewrite E. simpl. by rewrite decide_True by auto.
  - rewrite (reduce_add_total _ E). simpl.
    case_decide as Ek.
    + by rewrite Ek.
    + rewrite reduce_add_total; [done|]. by intros ?%fmap_nil_inv.
Qed.

Lemma coverage_bounds (kept all : Z) :
  1 ≤ kept → kept ≤ all →
  (0 < inject_Z kept / inject_Z all ∧ inject_Z kept / inject_Z all <= 1)%Q.
Proof.
  intros Hk Ha.
  assert (0 < inject_Z all)%Q as Hall.
  { change 0%Q with (inject_Z 0). rewrite <-Zlt_Qlt. lia. }
  split.
  - apply Qlt_shift_div_l; [done|]. rewrite Qmult_0_l.
    change 0%Q with (inject_Z 0). rewrite <-Zlt_Qlt. lia.
  - apply Qle_shift_div_r; [done|]. rewrite Qmult_1_l. rewrite <-Zle_Qle. lia.
Qed.

(** The two tables that [parseCorpus] returns, read off the words that
    survive pruning. *)
Lemma parseCorpus_tables iFile t cov v r :
  parseCorpus iFile t = Ok (cov, v, r) →
  let l := kept_items iFile t in
  (∀ w i, v !! w = Some i ↔
     (w = UNK ∧ i = 0 ∧ UNK ∉ l.*1) ∨
     ∃ k : nat, l.*1 !! k = Some w ∧ i = Z.of_nat k + 1) ∧
  (∀ i w, r !! i = Some w ↔
     (i = 0 ∧ w = UNK) ∨ ∃ k : nat, l.*1 !! k = Some w ∧ i = Z.of_nat k + 1) ∧
  (size v ≤ S (length l))%nat ∧ size r = S (length l).
Proof.
  rewrite parseCorpus_unfold. case_decide as Hk; [done|]. intros [= _ <- <-].
  destruct (add_items_spec (kept_items iFile t) (kept_items_NoDup iFile t))
    as (_ & Hv & Hr & Hsz).
  simpl. split; [done|]. split; [done|]. split; [|done].
  apply add_items_size.
Qed.

(** C2: whatever the corpus and the threshold, every vocabulary that
    [parseCorpus] returns maps id 0 to "UNK" in [rVocab], holds every
    entry of [vocab] reversed in [rVocab] and every entry of [rVocab]
    with an id other than 0 reversed in [vocab], and has at most
    [pruneThreshold + 1] entries in each table when the threshold is not
    negative.  "UNK" has id 0 in [vocab] exactly when the token "UNK" is
    not among the words that survive pruning, so whenever it does not
    occur in the corpus, and then the two tables are exact inverses.
    When "UNK" is among these words, at position [k] of the sorted
    counts, the loop of lines 107-110 writes over the entry of line 104:
    [vocab] sends "UNK" to [k + 1], [rVocab] sends both 0 and [k + 1] to
    "UNK", and the tables are not inverses. *)
Theorem parseCorpus_vocabulary iFile pruneThreshold cov v r :
  parseCorpus iFile pruneThreshold = Ok (cov, v, r) →
  r !! 0 = Some UNK ∧
  (∀ w i, v !! w = Some i → r !! i = Some w) ∧
  (∀ i w, r !! i = Some w → i ≠ 0 → v !! w = Some i) ∧
  (0 ≤ pruneThreshold →
   Z.of_nat (size v) ≤ pruneThreshold + 1 ∧
   Z.of_nat (size r) ≤ pruneThreshold + 1) ∧
  (v !! UNK = Some 0 ↔ UNK ∉ (kept_items iFile pruneThreshold).*1) ∧
  (UNK ∉ corpus_words iFile → v !! UNK = Some 0) ∧
  (v !! UNK = Some 0 → ∀ w i, v !! w = Some i ↔ r !! i = Some w) ∧
  (∀ k : nat, (kept_items iFile pruneThreshold).*1 !! k = Some UNK →
     v !! UNK = Some (Z.of_nat k + 1) ∧
     r !! (Z.of_nat k + 1) = Some UNK ∧
     ¬ (∀ w i, v !! w = Some i ↔ r !! i = Some w)).
Proof.
  intros Hp. destruct (parseCorpus_tables _ _ _ _ _ Hp) as (Hv & Hr & Hsv & Hsr).
  assert (r !! 0 = Some UNK) as H0 by (apply Hr; by left).
  assert (v !! UNK = Some 0 ↔ UNK ∉ (kept_items iFile pruneThreshold).*1) as Hunk.
  { rewrite Hv. split.
    - intros [(_ & _ & ?)|(k & _ & ?)]; [done|lia].
    - intros ?. by left. }
  assert (∀ w i, v !! w = Some i → r !! i = Some w) as Hvr.
  { intros w i. rewrite Hv, Hr.
    intros [(-> & -> & _)|?]; [by left|by right]. }
  assert (∀ i w, r !! i = Some w → i ≠ 0 → v !! w = Some i) as Hrv.
  { intros i w. rewrite Hv, Hr. intros [[-> _]|?] ?; [done|by right]. }
  split; [done|]. split; [done|]. split; [done|]. split; [|split; [done|split; [|split]]].
  - intros Ht. pose proof (kept_items_length iFile _ Ht). lia.
  - intros Hno. apply Hunk. intros Hin.
    by apply Hno, (kept_items_words _ pruneThreshold).
  - intros Hu w i. split; [apply Hvr|]. intros Hi.
    destruct (decide (i = 0)) as [->|Hne]; [|by apply Hrv].
    rewrite H0 in Hi. by injection Hi as <-.
  - intros k Hk.
    assert (v !! UNK = Some (Z.of_nat k + 1)) as Hu.
    { apply Hv. right. by exists k. }
    split; [done|]. split; [by apply Hvr|].
    intros Hinv. apply Hinv in H0. rewrite Hu in H0. injection H0. lia.
Qed.

(** C2 at two corpora.  At the corpus of the end-to-end scenario "UNK"
    keeps id 0 and the tables are inverses.  At a corpus whose only
    token is "UNK", [vocab] sends "UNK" to 1 and [rVocab] sends both 0
    and 1 to "UNK". *)
Lemma parseCorpus_vocabulary_witness :
  (∃ cov v r, parseCorpus ["a b a"; "a"] 10 = Ok (cov, v, r) ∧
     r !! 0 = Some UNK ∧ v !! UNK = Some 0 ∧
     (∀ w i, v !! w = Some i ↔ r !! i = Some w) ∧
     Z.of_nat (size v) ≤ 10 + 1) ∧
  (∃ cov v r, parseCorpus ["UNK"] 10 = Ok (cov, v, r) ∧
     r !! 0 = Some UNK ∧ v !! UNK = Some 1 ∧ r !! 1 = Some UNK ∧
     ¬ (∀ w i, v !! w = Some i ↔ r !! i = Some w)).
Proof.
  split.
  - assert (∃ cov v r, parseCorpus ["a b a"; "a"] 10 = Ok (cov, v, r))
      as (cov & v & r & Hp) by (eexists _, _, _; vm_compute; reflexivity).
    exists cov, v, r. split; [exact Hp|].
    destruct (parseCorpus_vocabulary ["a b a"; "a"] 10 cov v r Hp)
      as (H0 & _ & _ & Hsz & Hunk & _ & Hinv & _).
    assert (UNK ∉ (kept_items ["a b a"; "a"] 10).*1) as Hno.
    { vm_compute. intros H.
      repeat (apply elem_of_cons in H as [H|H]; [discriminate|]).
      by apply elem_of_nil in H. }
    apply (proj2 Hunk) in Hno.
    split; [exact H0|]. split; [exact Hno|]. split; [exact (Hinv Hno)|].
    apply Hsz. lia.
  - assert (∃ cov v r, parseCorpus ["UNK"] 10 = Ok (cov, v, r))
      as (cov & v & r & Hp) by (eexists _, _, _; vm_compute; reflexivity).
    exists cov, v, r. split; [exact Hp|].
    destruct (parseCorpus_vocabulary ["UNK"] 10 cov v r Hp)
      as (H0 & _ & _ & _ & _ & _ & _ & Hk).
    destruct (Hk 0%nat) as (Hv & Hr & Hn); [vm_compute; reflexivity|].
    change (Z.of_nat 0 + 1) with 1 in Hv, Hr.
    split; [exact H0|]. split; [exact Hv|]. split; [exact Hr|exact Hn].
Defined.

(** A negative threshold prunes from the end of the sorted counts: it
    bounds no size. *)
Example parseCorpus_negative_threshold :
  ∃ cov v r, parseCorpus ["a b c"] (-1) = Ok (cov, v, r) ∧ size v = 3%nat.
Proof. eexists _, _, _. split; by vm_compute. Qed.

(** C8, amended: when pruning keeps at least one entry, as it does for
    every corpus with a token and every threshold from 1 on,
    [parseCorpus] returns as coverage the sum of the kept counts divided
    by the sum of all counts (which is the number of tokens of the
    corpus), a value in (0, 1]; when pruning keeps nothing, as for a
    corpus without tokens or a threshold of 0, [parseCorpus] raises. *)
Theorem parseCorpus_coverage iFile pruneThreshold :
  (kept_items iFile pruneThreshold ≠ [] →
   ∃ cov v r, parseCorpus iFile pruneThreshold = Ok (cov, v, r) ∧
     cov = (inject_Z (total ((kept_items iFile pruneThreshold).*2))
            / inject_Z (total (dict_values (count_corpus iFile))))%Q ∧
     total (dict_values (count_corpus iFile))
       = Z.of_nat (length (corpus_words iFile)) ∧
     (0 < cov)%Q ∧ (cov <= 1)%Q) ∧
  (corpus_words iFile ≠ [] → 1 ≤ pruneThreshold →
   kept_items iFile pruneThreshold ≠ []) ∧
  (kept_items iFile pruneThreshold = [] →
   parseCorpus iFile pruneThreshold = Raise TypeError) ∧
  (corpus_words iFile = [] → kept_items iFile pruneThreshold = []).
Proof.
  split; [|split; [|split]].
  - intros Hk. rewrite parseCorpus_unfold, decide_False by done.
    eexists _, _, _. split; [reflexivity|]. split; [reflexivity|].
    split; [apply count_corpus_total|].
    apply coverage_bounds; [|apply kept_items_total].
    apply total_positive; [by intros ?%fmap_nil_inv|].
    apply Forall_forall. intros c ([w c'] & -> & Hin)%list_elem_of_fmap.
    apply kept_items_elem in Hin. by eapply count_corpus_positive.
  - apply kept_items_nonempty.
  - intros Hk. by rewrite parseCorpus_unfold, decide_True.
  - intros Hw%dict_items_nil. apply sublist_nil_r.
    pose proof (kept_items_sublist iFile pruneThreshold) as Hs.
    by rewrite Hw in Hs.
Qed.

(** C8 at the corpus of the end-to-end scenario: the coverage is 1. *)
Lemma parseCorpus_coverage_witness :
  ∃ cov v r, parseCorpus ["a b a"; "a"] 10 = Ok (cov, v, r) ∧
    (cov == 1)%Q ∧ (0 < cov)%Q ∧ (cov <= 1)%Q.
Proof.
  destruct (parseCorpus_coverage ["a b a"; "a"] 10) as (H & _).
  destruct H as (cov & v & r & Hp & Hc & _ & H0 & H1); [by vm_compute|].
  exists cov, v, r. split; [done|]. split; [|done].
  rewrite Hc. by vm_compute.
Defined.

(** C8 as first stated fails at threshold 0: the corpus has a token, yet
    [parseCorpus] raises instead of returning a coverage. *)
Lemma parseCorpus_coverage_counterexample :
  corpus_words ["a"] ≠ [] ∧ parseCorpus ["a"] 0 = Raise TypeError.
Proof. split; [by vm_compute|by vm_compute]. Qed.

(** The end-to-end scenario of the vocabulary: "a" is seen three times
    and "b" once. *)
Example parseCorpus_scenario :
  ∃ cov, parseCorpus ["a b a"; "a"] 10
    = Ok (cov, {[UNK := 0; "a" := 1; "b" := 2]}, {[0 := UNK; 1 := "a"; 2 := "b"]})
    ∧ (cov == 1)%Q.
Proof. eexists. split; [vm_compute; reflexivity|reflexivity]. Qed.

(** ** EmbeddingAligner *)

Lemma assign_row_same dim value :
  length value = dim → assign_row dim value = Ok value.
Proof. intros E. unfold assign_row. by rewrite decide_True. Qed.

Lemma length_np_ones dim : length (np_ones dim) = Z.to_nat dim.
Proof. apply length_replicate. Qed.

Lemma misses_cons vectorHash vocab i ixs :
  misses vectorHash vocab (i :: ixs)
  = (if is_miss vectorHash vocab i then 1 else 0) + misses vectorHash vocab ixs.
Proof.
  unfold misses. rewrite filter_cons.
  destruct (is_miss vectorHash vocab i) eqn:E.
  - rewrite decide_True by done. simpl length. lia.
  - rewrite decide_False by done. lia.
Qed.

(** The loop [for i in range(len(vocab))] over the ids [a, a + n): it
    returns, counts the misses among them, stores the vector of every
    word (the all-ones row for a miss) and leaves the rows below [a]
    alone. *)
Lemma embed_ids_spec vectorHash vocab dim n : ∀ a unkCount embeddings,
  vectors_of_dim dim vectorHash →
  (a + n ≤ length embeddings)%nat →
  (∀ i : nat, (a ≤ i < a + n)%nat → is_Some (vocab !! Z.of_nat i)) →
  ∃ embeddings',
    embed_ids vectorHash vocab dim (unkCount, embeddings) (seq a n)
      = Ok (unkCount + misses vectorHash vocab (seq a n), embeddings') ∧
    length embeddings' = length embeddings ∧
    (∀ (i : nat) w, (a ≤ i < a + n)%nat → vocab !! Z.of_nat i = Some w →
       embeddings' !! i = Some (default (np_ones dim) (vectorHash !! w))) ∧
    (∀ i : nat, (i < a)%nat → embeddings' !! i = embeddings !! i).
Proof.
  induction n as [|n IH]; intros a unkCount embeddings Hvec Hlen Hdense.
  - exists embeddings. simpl. unfold misses. simpl.
    rewrite Z.add_0_r. split; [done|]. split; [done|]. split; [intros; lia|done].
  - destruct (Hdense a) as [w Hw]; [lia|].
    assert (assign_row (Z.to_nat dim) (default (np_ones dim) (vectorHash !! w))
            = Ok (default (np_ones dim) (vectorHash !! w))) as Hrow.
    { apply assign_row_same. destruct (vectorHash !! w) as [v|] eqn:Ev; simpl.
      - by apply (Hvec _ _ Ev).
      - apply length_np_ones. }
    destruct (IH (S a)
      (if decide (vectorHash !! w = None) then unkCount + 1 else unkCount)
      (<[a := default (np_ones dim) (vectorHash !! w)]> embeddings))
      as (emb' & Hrun & Hlen' & Hrows & Hlow); [done| |intros; apply Hdense; lia|].
    { rewrite length_insert. lia. }
    exists emb'. split; [|split; [|split]].
    + rewrite <-cons_seq. simpl. rewrite Hw. simpl.
      rewrite Hrow. simpl. rewrite Hrun. f_equal. f_equal.
      rewrite misses_cons. unfold is_miss. rewrite Hw.
      destruct (decide (vectorHash !! w = None)) as [E|E].
      * rewrite bool_decide_eq_true_2 by done. lia.
      * rewrite bool_decide_eq_false_2 by done. lia.
    + by rewrite Hlen', length_insert.
    + intros i w' Hi Hw'. destruct (decide (i = a)) as [->|Hne].
      * rewrite Hlow by lia. rewrite list_lookup_insert_eq by lia. congruence.
      * apply Hrows; [lia|done].
    + intros i Hi. rewrite Hlow by lia. by rewrite list_lookup_insert_ne by lia.
Qed.

(** The ids of a dense vocabulary are exactly 0 .. size - 1. *)
Lemma dense_ids vocab i w :
  dense vocab → vocab !! i = Some w → 0 ≤ i < Z.of_nat (size vocab).
Proof.
  intros Hd Hi.
  set (ids := list_to_set (seqZ 0 (Z.of_nat (size vocab))) : gset Z).
  assert (ids = dom vocab) as Hids.
  { apply set_subseteq_size_eq.
    - intros k Hk. apply elem_of_list_to_set, elem_of_seqZ in Hk.
      apply elem_of_dom. rewrite <-(Z2Nat.id k) by lia. apply Hd. lia.
    - rewrite size_dom. unfold ids.
      rewrite size_list_to_set by apply NoDup_seqZ.
      rewrite length_seqZ. lia. }
  assert (i ∈ ids) as Hin.
  { rewrite Hids. apply elem_of_dom. by eexists. }
  apply elem_of_list_to_set, elem_of_seqZ in Hin. lia.
Qed.

Lemma build_embeddings_spec vectorHash vocab dim :
  vectors_of_dim dim vectorHash → dense vocab → 0 ≤ dim →
  ∃ embeddings,
    build_embeddings vectorHash vocab dim
      = Ok (-1 + misses vectorHash vocab (seq 0 (size vocab)), embeddings) ∧
    length embeddings = size vocab ∧
    (∀ i w, vocab !! i = Some w →
       embeddings !! Z.to_nat i = Some (default (np_ones dim) (vectorHash !! w))).
Proof.
  intros Hvec Hd Hdim. unfold build_embeddings. rewrite decide_False by lia.
  destruct (embed_ids_spec vectorHash vocab dim (size vocab) 0 (-1)
    (replicate (size vocab) (replicate (Z.to_nat dim) 0)))
    as (emb & Hrun & Hlen & Hrows & _); [done| |intros; apply Hd; lia|].
  { rewrite length_replicate. lia. }
  exists emb. split; [done|]. split; [by rewrite Hlen, length_replicate|].
  intros i w Hi. pose proof (dense_ids _ _ _ Hd Hi) as Hb.
  apply Hrows; [lia|]. by rewrite Z2Nat.id by lia.
Qed.

(** C9: when the header of the embedding file declares a vector
    dimension other than the expected one, [readWordVectors] raises
    [AssertionError]; so does the reading of the file into [vectorHash],
    before the matrix construction. *)
Theorem readWordVectors_dimension_mismatch utf8_valid vectorBin vocab dim
    vocab_size vector_size :
  parse_header (readline vectorBin).1 = Ok (vocab_size, vector_size) →
  vector_size ≠ dim →
  read_vectorHash utf8_valid vectorBin dim = Raise AssertionError ∧
  readWordVectors utf8_valid vectorBin vocab dim = Raise AssertionError.
Proof.
  intros Hh Hne.
  assert (read_vectorHash utf8_valid vectorBin dim = Raise AssertionError) as E.
  { unfold read_vectorHash. destruct (readline vectorBin) as [header fin].
    simpl in Hh. rewrite Hh. simpl. by rewrite decide_False. }
  split; [done|]. unfold readWordVectors. by rewrite E.
Qed.

(** C9 at a file whose header announces 3 cells where 50 are expected. *)
Lemma readWordVectors_dimension_mismatch_witness :
  readWordVectors (λ _, true)
    ("1 3" +:+ String "010" ("w " +:+ "abcdefghijkl" +:+ String "010" ""))
    {[0 := UNK; 1 := "w"]} 50 = Raise AssertionError.
Proof.
  apply (readWordVectors_dimension_mismatch (λ _, true) _ _ 50 1 3).
  - vm_compute; reflexivity.
  - lia.
Defined.

(** C6: when the embedding file is read into vectors of [dim] cells each
    and the vocabulary has the ids 0 .. size - 1, [readWordVectors]
    returns a matrix with one row per vocabulary id; the row of a word
    without a vector is the all-ones row of [dim] cells, the row of any
    other word is its vector. *)
Theorem readWordVectors_matrix utf8_valid vectorBin vocab dim vectorHash :
  read_vectorHash utf8_valid vectorBin dim = Ok vectorHash →
  vectors_of_dim dim vectorHash →
  dense vocab →
  0 ≤ dim →
  ∃ unkCount embeddings,
    readWordVectors utf8_valid vectorBin vocab dim = Ok (unkCount, embeddings) ∧
    length embeddings = size vocab ∧
    ∀ i w, vocab !! i = Some w →
      0 ≤ i < Z.of_nat (size vocab) ∧
      embeddings !! Z.to_nat i =
        Some (match vectorHash !! w with
              | Some v => v
              | None => replicate (Z.to_nat dim) f32_one
              end).
Proof.
  intros Hread Hvec Hd Hdim.
  destruct (build_embeddings_spec vectorHash vocab dim Hvec Hd Hdim)
    as (emb & Hrun & Hlen & Hrows).
  eexists _, emb. unfold readWordVectors. rewrite Hread. simpl.
  split; [exact Hrun|]. split; [done|].
  intros i w Hi. split; [by eapply dense_ids|].
  rewrite (Hrows i w Hi). by destruct (vectorHash !! w).
Qed.

(** C7: under the same conditions, and when the word of id 0 (the
    explicit UNK entry) has no vector, the count that [readWordVectors]
    returns is the number of ids from 1 on whose word has no vector. *)
Theorem readWordVectors_unkCount utf8_valid vectorBin vocab dim vectorHash unk :
  read_vectorHash utf8_valid vectorBin dim = Ok vectorHash →
  vectors_of_dim dim vectorHash →
  dense vocab →
  0 ≤ dim →
  vocab !! 0 = Some unk →
  vectorHash !! unk = None →
  ∃ embeddings,
    readWordVectors utf8_valid vectorBin vocab dim
      = Ok (misses vectorHash vocab (seq 1 (size vocab - 1)), embeddings).
Proof.
  intros Hread Hvec Hd Hdim H0 Hunk.
  destruct (build_embeddings_spec vectorHash vocab dim Hvec Hd Hdim)
    as (emb & Hrun & _).
  exists emb. unfold readWordVectors. rewrite Hread. simpl. rewrite Hrun.
  do 2 f_equal.
  pose proof (dense_ids _ _ _ Hd H0) as Hb.
  destruct (size vocab) as [|n]; [lia|].
  rewrite <-cons_seq, misses_cons. unfold is_miss at 1.
  change (Z.of_nat 0) with 0. rewrite H0, bool_decide_eq_true_2 by done.
  replace (S n - 1)%nat with n by lia. lia.
Qed.

Lemma vocab_example_dense : dense vocab_example.
Proof.
  intros i Hi. change (size vocab_example) with 3%nat in Hi.
  destruct i as [|[|[|i]]]; [by eexists..|lia].
Qed.

(** C6 at [vectors_example]: three rows, the vector of "w" at id 1 and
    the all-ones row at id 2. *)
Lemma readWordVectors_matrix_witness :
  ∃ unkCount embeddings,
    readWordVectors (λ _, true) vectors_example vocab_example 2
      = Ok (unkCount, embeddings) ∧
    length embeddings = 3%nat ∧
    embeddings !! 1%nat = Some [1684234849; 1751606885] ∧
    embeddings !! 2%nat = Some [f32_one; f32_one].
Proof.
  destruct (readWordVectors_matrix (λ _, true) vectors_example vocab_example 2
    {["w" := [1684234849; 1751606885]; "x" := [1818978921; 1886350957]]})
    as (u & emb & Hrun & Hlen & Hrows).
  - vm_compute; reflexivity.
  - apply map_Forall_insert_2; [reflexivity|].
    apply map_Forall_insert_2; [reflexivity|]. apply map_Forall_empty.
  - apply vocab_example_dense.
  - lia.
  - exists u, emb. split; [done|]. split; [done|]. split.
    + by destruct (Hrows 1 "w" eq_refl) as [_ H].
    + by destruct (Hrows 2 "zz" eq_refl) as [_ H].
Defined.

(** C7 at [vectors_example]: of the ids 1 and 2 only "zz" has no vector. *)
Lemma readWordVectors_unkCount_witness :
  ∃ embeddings,
    readWordVectors (λ _, true) vectors_example vocab_example 2
      = Ok (1, embeddings).
Proof.
  destruct (readWordVectors_unkCount (λ _, true) vectors_example vocab_example 2
    {["w" := [1684234849; 1751606885]; "x" := [1818978921; 1886350957]]} UNK)
    as (emb & Hrun).
  - vm_compute; reflexivity.
  - apply map_Forall_insert_2; [reflexivity|].
    apply map_Forall_insert_2; [reflexivity|]. apply map_Forall_empty.
  - apply vocab_example_dense.
  - lia.
  - reflexivity.
  - reflexivity.
  - exists emb. exact Hrun.
Defined.

(** A file cut short: when the vector of the last word has a single
    cell left, numpy spreads that cell over the row; when a word is
    missing, the search for its closing space never ends. *)
Example readWordVectors_short_vector :
  readWordVectors (λ _, true) ("1 2" +:+ String "010" "w abcd")
    {[0 := UNK; 1 := "w"]} 2
  = Ok (0, [[f32_one; f32_one]; [1684234849; 1684234849]]).
Proof. vm_compute. reflexivity. Qed.

Example readWordVectors_missing_word :
  readWordVectors (λ _, true) ("2 1" +:+ String "010" ("w abcd" +:+ String "010" ""))
    {[0 := UNK; 1 := "w"]} 1
  = Hang.
Proof. vm_compute. reflexivity. Qed.

(** When the embedding file has a vector for the word of id 0, the count
    starts one too low. *)
Example readWordVectors_UNK_has_vector :
  readWordVectors (λ _, true) ("1 1" +:+ String "010" ("UNK abcd" +:+ String "010" ""))
    {[0 := UNK; 1 := "w"]} 1
  = Ok (0, [[1684234849]; [f32_one]]).
Proof. vm_compute. reflexivity. Qed.

(** ** PhrasePairExtractor *)

Example split_bars_scenario : split_bars (strip "x y ||| z") = ["x y "; " z"].
Proof. reflexivity. Qed.

Example split_bars_four : split_bars "a||||b" = ["a"; "|b"].
Proof. reflexivity. Qed.

Example strip_both_ends :
  strip (String "009" " a  b " +:+ String "010" "") = "a  b".
Proof. reflexivity. Qed.

Lemma prefix_cons a p c s :
  String.prefix (String a p) (String c s)
  = if decide (a = c) then String.prefix p s else false.
Proof.
  simpl. destruct (ascii_dec a c); [by rewrite decide_True|by rewrite decide_False].
Qed.

Lemma prefix_nil_l s : String.prefix EmptyString s = true.
Proof. by destruct s. Qed.

Lemma prefix_nil_r a p : String.prefix (String a p) EmptyString = false.
Proof. done. Qed.

Lemma contains_cons d c s :
  contains d (String c s) = String.prefix d (String c s) || contains d s.
Proof. done. Qed.

Lemma is_space_not_bar c : Ascii.is_space c = true → "|"%char ≠ c.
Proof. intros H <-. discriminate. Qed.

Lemma prefix_bars_space c s :
  Ascii.is_space c = true → String.prefix "|||" (String c s) = false.
Proof.
  intros Hc. rewrite prefix_cons. by rewrite decide_False by by apply is_space_not_bar.
Qed.

Lemma contains_lstrip s : contains "|||" (lstrip s) = contains "|||" s.
Proof.
  induction s as [|c s IH]; [done|]. simpl lstrip.
  destruct (Ascii.is_space c) eqn:Hc; [|done].
  by rewrite IH, contains_cons, prefix_bars_space.
Qed.

Lemma prefix_bars_rstrip s : ∀ n,
  String.prefix (bars n) (rstrip s) = String.prefix (bars n) s.
Proof.
  induction s as [|c s IH]; intros n; [done|].
  destruct n as [|n]; [by rewrite !prefix_nil_l|].
  change (bars (S n)) with (String "|" (bars n)).
  simpl rstrip. destruct (rstrip s) as [|c1 r] eqn:Er.
  - destruct (Ascii.is_space c) eqn:Hc.
    + rewrite prefix_cons, decide_False by by apply is_space_not_bar. done.
    + rewrite !prefix_cons. case_decide; [|done]. apply IH.
  - rewrite !prefix_cons. case_decide; [|done]. apply IH.
Qed.

Lemma contains_rstrip s : contains "|||" (rstrip s) = contains "|||" s.
Proof.
  induction s as [|c s IH]; [done|].
  pose proof (prefix_bars_rstrip (String c s) 3) as Hp.
  change (bars 3) with "|||" in Hp.
  rewrite contains_cons, <-Hp, <-IH. simpl rstrip.
  destruct (rstrip s) as [|c1 r] eqn:Er.
  - destruct (Ascii.is_space c); [done|]. by rewrite contains_cons.
  - by rewrite contains_cons.
Qed.

Lemma contains_strip s : contains "|||" (strip s) = contains "|||" s.
Proof. unfold strip. by rewrite contains_rstrip, contains_lstrip. Qed.

Lemma split_bars_go_skip cur c s :
  String.prefix "|||" (String c s) = false →
  split_bars_go cur (String c s) = split_bars_go (String c cur) s.
Proof.
  intros H. rewrite prefix_cons in H.
  destruct (decide ("|"%char = c)) as [<-|Hc].
  - destruct s as [|c1 s]; [done|]. rewrite prefix_cons in H.
    destruct (decide ("|"%char = c1)) as [<-|Hc1].
    + destruct s as [|c2 s]; [done|]. rewrite prefix_cons in H.
      destruct (decide ("|"%char = c2)) as [<-|Hc2];
        [by rewrite prefix_nil_l in H|].
      destruct c2 as [[] [] [] [] [] [] [] []]; done.
    + destruct c1 as [[] [] [] [] [] [] [] []]; done.
  - destruct c as [[] [] [] [] [] [] [] []]; done.
Qed.

Lemma prefix_bars_inv s :
  String.prefix "|||" s = true → ∃ rest, s = "|||" +:+ rest.
Proof.
  destruct s as [|c [|c1 [|c2 rest]]]; try done;
    rewrite ?prefix_cons; repeat (case_decide; [subst|done]); try done.
  intros _. by exists rest.
Qed.

Lemma split_bars_go_bars cur rest :
  split_bars_go cur ("|||" +:+ rest)
  = String.rev cur :: split_bars_go EmptyString rest.
Proof. done. Qed.

Lemma split_bars_go_length cur s : (1 ≤ length (split_bars_go cur s))%nat.
Proof.
  revert cur. induction s as [|c s IH]; intros cur; [simpl; lia|].
  destruct (String.prefix "|||" (String c s)) eqn:Hp.
  - apply prefix_bars_inv in Hp as [rest ->].
    rewrite split_bars_go_bars. simpl length. lia.
  - rewrite split_bars_go_skip by done. apply IH.
Qed.

(** A string without the delimiter is a single piece. *)
Lemma split_bars_go_single cur s :
  contains "|||" s = false → length (split_bars_go cur s) = 1%nat.
Proof.
  revert cur. induction s as [|c s IH]; intros cur H; [done|].
  rewrite contains_cons in H. apply orb_false_iff in H as [Hp Hc].
  rewrite split_bars_go_skip by done. by apply IH.
Qed.

(** A string with the delimiter has at least two pieces. *)
Lemma split_bars_go_two cur s :
  contains "|||" s = true → (2 ≤ length (split_bars_go cur s))%nat.
Proof.
  revert cur. induction s as [|c s IH]; intros cur H; [done|].
  rewrite contains_cons in H.
  destruct (String.prefix "|||" (String c s)) eqn:Hp.
  - apply prefix_bars_inv in Hp as [rest ->].
    rewrite split_bars_go_bars. simpl length.
    pose proof (split_bars_go_length EmptyString rest). lia.
  - rewrite split_bars_go_skip by done. by apply IH.
Qed.

Lemma split_bars_no_delimiter line :
  contains "|||" line = false → split_bars (strip line) !! 1%nat = None.
Proof.
  intros H. apply lookup_ge_None. unfold split_bars.
  rewrite split_bars_go_single; [done|]. by rewrite contains_strip.
Qed.

Lemma split_bars_delimiter line :
  contains "|||" line = true →
  ∃ seg0 seg1 rest, split_bars (strip line) = seg0 :: seg1 :: rest.
Proof.
  intros H. rewrite <-contains_strip in H.
  pose proof (split_bars_go_two EmptyString _ H) as Hl. fold (split_bars (strip line)) in Hl.
  destruct (split_bars (strip line)) as [|seg0 [|seg1 rest]]; simpl in Hl; try lia.
  by eexists _, _, _.
Qed.

Lemma wrap_small w z :
  0 < w → - 2 ^ (w - 1) ≤ z < 2 ^ (w - 1) → wrap w z = z.
Proof.
  intros Hw Hz. unfold wrap.
  assert (2 ^ w = 2 * 2 ^ (w - 1)) as Hp.
  { rewrite <-Z.pow_succ_r by lia. f_equal. lia. }
  rewrite Z.mod_small by lia. lia.
Qed.

Lemma lookup_ids_range voc emb seg :
  vocab_fits voc emb →
  Forall (λ i, 0 ≤ i < 2 ^ 31 ∧ i < Z.of_nat (length emb)) (lookup_ids voc seg).
Proof.
  intros [Hn Hv]. unfold lookup_ids. apply Forall_fmap, Forall_forall.
  intros w _. simpl. destruct (voc !! w) as [i|] eqn:E; simpl.
  - apply (Hv _ _ E).
  - lia.
Qed.

Lemma phrase_ids_lookup voc emb seg :
  vocab_fits voc emb → phrase_ids voc seg = lookup_ids voc seg.
Proof.
  intros Hv. unfold phrase_ids. fold (lookup_ids voc seg).
  pose proof (lookup_ids_range voc emb seg Hv) as Hr.
  induction Hr as [|i l Hi Hr IH]; [done|].
  unfold astype_int32 in *. csimpl. rewrite IH. f_equal.
  apply wrap_small; [lia|]. change (32 - 1) with 31. lia.
Qed.

Lemma total_zero l : Forall (λ i, 0 ≤ i) l → total l = 0 ↔ all_zero l.
Proof.
  unfold all_zero. induction 1 as [|i l Hi Hl IH]; simpl.
  - split; [constructor|done].
  - pose proof (total_nonneg l Hl). rewrite Forall_cons, <-IH. lia.
Qed.

Lemma total_bound l b :
  Forall (λ i, 0 ≤ i < b) l → 0 ≤ total l ≤ Z.of_nat (length l) * b.
Proof. induction 1 as [|i l Hi Hl IH]; simpl length; simpl total; nia. Qed.

(** On ids that are not negative and fit 31 bits, fewer than 2^32 of
    them, the 64-bit sum is zero exactly when every id is zero. *)
Lemma np_sum_zero l :
  Forall (λ i, 0 ≤ i < 2 ^ 31) l → Z.of_nat (length l) < 2 ^ 32 →
  np_sum l = 0 ↔ all_zero l.
Proof.
  intros Hl Hlen. unfold np_sum. fold (total l).
  pose proof (total_bound l _ Hl) as Hb.
  rewrite wrap_small; [|lia|].
  - apply total_zero. eapply Forall_impl; [done|]. simpl. lia.
  - change (64 - 1) with 63. split; [lia|].
    assert (Z.of_nat (length l) * 2 ^ 31 < 2 ^ 32 * 2 ^ 31) by nia.
    change (2 ^ 32 * 2 ^ 31) with (2 ^ 63) in *. lia.
Qed.

Lemma np_row_lookup {A} (emb : list A) i :
  0 ≤ i < Z.of_nat (length emb) →
  np_row emb i = from_opt IndexError (emb !! Z.to_nat i).
Proof. intros Hi. unfold np_row. by rewrite decide_True by lia. Qed.

Lemma np_rows_gather emb ids :
  Forall (λ i, 0 ≤ i < Z.of_nat (length emb)) ids →
  np_rows emb ids = Ok (gather emb ids) ∧
  Forall2 (λ i row, emb !! Z.to_nat i = Some row) ids (gather emb ids).
Proof.
  unfold gather. induction 1 as [|i ids Hi Hids [IH1 IH2]]; [by split|].
  destruct (lookup_lt_is_Some_2 emb (Z.to_nat i)) as [row Hrow]; [lia|].
  split.
  - simpl np_rows. rewrite np_row_lookup by done. rewrite Hrow, IH1.
    csimpl. by rewrite Hrow.
  - csimpl. constructor; [by rewrite Hrow|done].
Qed.

(** The only exception of the loop body is [IndexError], and it always
    ends. *)
Lemma np_rows_outcome {A} (emb : list A) ids :
  (∃ rows, np_rows emb ids = Ok rows) ∨ np_rows emb ids = Raise IndexError.
Proof.
  induction ids as [|i ids IH]; [left; by eexists|].
  simpl np_rows. assert ((∃ r, np_row emb i = Ok r) ∨ np_row emb i = Raise IndexError) as [[r ->]| ->].
  { unfold np_row. repeat case_decide;
      try (destruct (emb !! _); simpl; [left; by eexists|by right]). by right. }
  - simpl. destruct IH as [[rows ->]| ->]; [left; by eexists|by right].
  - by right.
Qed.

Lemma phrase_pair_outcome sVocab tVocab sEmb tEmb line :
  (∃ p, phrase_pair sVocab tVocab sEmb tEmb line = Ok p) ∨
  phrase_pair sVocab tVocab sEmb tEmb line = Raise IndexError.
Proof.
  unfold phrase_pair.
  destruct (split_bars (strip line) !! 0%nat) as [seg0|]; simpl; [|by right].
  destruct (split_bars (strip line) !! 1%nat) as [seg1|]; simpl; [|by right].
  case_decide; [left; by eexists|].
  destruct (np_rows_outcome sEmb (phrase_ids sVocab seg0)) as [[sv ->]| ->];
    simpl; [|by right].
  destruct (np_rows_outcome tEmb (phrase_ids tVocab seg1)) as [[tv ->]| ->];
    simpl; [left; by eexists|by right].
Qed.

(** On a well-formed line the loop body does what the specification
    says. *)
Lemma phrase_pair_spec sVocab tVocab sEmb tEmb line :
  vocab_fits sVocab sEmb → vocab_fits tVocab tEmb →
  contains "|||" line = true → sides_short line →
  phrase_pair sVocab tVocab sEmb tEmb line
    = Ok (spec_phrase_pair sVocab tVocab sEmb tEmb line).
Proof.
  intros Hs Ht Hc Hshort.
  destruct (split_bars_delimiter line Hc) as (seg0 & seg1 & rest & Hsplit).
  unfold phrase_pair, spec_phrase_pair, sides_short in *.
  rewrite Hsplit in *. simpl.
  apply Forall_cons in Hshort as [H0 Hshort].
  apply Forall_cons in Hshort as [H1 _].
  rewrite (phrase_ids_lookup _ _ _ Hs), (phrase_ids_lookup _ _ _ Ht).
  pose proof (lookup_ids_range sVocab sEmb seg0 Hs) as Hrs.
  pose proof (lookup_ids_range tVocab tEmb seg1 Ht) as Hrt.
  assert (np_sum (lookup_ids sVocab seg0) = 0 ↔ all_zero (lookup_ids sVocab seg0)) as Es.
  { apply np_sum_zero.
    - eapply Forall_impl; [exact Hrs|]. simpl. tauto.
    - unfold lookup_ids. by rewrite length_fmap. }
  assert (np_sum (lookup_ids tVocab seg1) = 0 ↔ all_zero (lookup_ids tVocab seg1)) as Et.
  { apply np_sum_zero.
    - eapply Forall_impl; [exact Hrt|]. simpl. tauto.
    - unfold lookup_ids. by rewrite length_fmap. }
  destruct (decide (all_zero (lookup_ids sVocab seg0) ∨ all_zero (lookup_ids tVocab seg1)))
    as [Hz|Hz].
  - rewrite decide_True by tauto. done.
  - rewrite decide_False by tauto.
    destruct (np_rows_gather sEmb (lookup_ids sVocab seg0)) as [-> _].
    { eapply Forall_impl; [exact Hrs|]. simpl. lia. }
    destruct (np_rows_gather tEmb (lookup_ids tVocab seg1)) as [-> _].
    { eapply Forall_impl; [exact Hrt|]. simpl. lia. }
    done.
Qed.

Lemma phrase_pairs_from_spec sVocab tVocab sEmb tEmb tTable : ∀ phrasePairs,
  vocab_fits sVocab sEmb → vocab_fits tVocab tEmb →
  Forall (λ line, contains "|||" line = true ∧ sides_short line) tTable →
  phrase_pairs_from sVocab tVocab sEmb tEmb phrasePairs tTable
    = Ok (phrasePairs ++ omap (spec_phrase_pair sVocab tVocab sEmb tEmb) tTable).
Proof.
  induction tTable as [|line tTable IH]; intros acc Hs Ht Hl.
  - simpl. by rewrite app_nil_r.
  - apply Forall_cons in Hl as [[Hc Hshort] Hl]. simpl phrase_pairs_from.
    rewrite phrase_pair_spec by done. simpl.
    rewrite IH by done. f_equal.
    destruct (spec_phrase_pair sVocab tVocab sEmb tEmb line); simpl; [|done].
    by rewrite <-app_assoc.
Qed.

(** C5: with vocabularies whose ids are non-negative [int32] values that
    have a row in their embedding matrix, and a table whose lines all
    hold the delimiter and fewer than 2^32 tokens per segment,
    [getPhrasePairs] returns, in the order of the table, one triple for
    every line except those whose source ids or target ids are all zero;
    the target ids of a triple are the direct lookups of the target
    tokens (0 when unknown) and its vectors are the rows of the matrices
    at the source ids and at the target ids. *)
Theorem getPhrasePairs_spec tTable sVocab tVocab sEmbeddings tEmbeddings :
  vocab_fits sVocab sEmbeddings → vocab_fits tVocab tEmbeddings →
  Forall (λ line, contains "|||" line = true ∧ sides_short line) tTable →
  getPhrasePairs tTable sVocab tVocab sEmbeddings tEmbeddings
    = Ok (omap (spec_phrase_pair sVocab tVocab sEmbeddings tEmbeddings) tTable) ∧
  ∀ line, line ∈ tTable →
    ∃ seg0 seg1 rest, split_bars (strip line) = seg0 :: seg1 :: rest ∧
      let sIds := lookup_ids sVocab seg0 in
      let tIds := lookup_ids tVocab seg1 in
      (all_zero sIds ∨ all_zero tIds →
       phrase_pair sVocab tVocab sEmbeddings tEmbeddings line = Ok None) ∧
      (¬ (all_zero sIds ∨ all_zero tIds) →
       ∃ sVecs tVecs,
         phrase_pair sVocab tVocab sEmbeddings tEmbeddings line
           = Ok (Some (sVecs, tVecs, tIds)) ∧
         Forall2 (λ i row, sEmbeddings !! Z.to_nat i = Some row) sIds sVecs ∧
         Forall2 (λ i row, tEmbeddings !! Z.to_nat i = Some row) tIds tVecs).
Proof.
  intros Hs Ht Hl. split.
  - unfold getPhrasePairs. by rewrite phrase_pairs_from_spec.
  - intros line Hin. rewrite Forall_forall in Hl.
    destruct (Hl line Hin) as [Hc Hshort].
    destruct (split_bars_delimiter line Hc) as (seg0 & seg1 & rest & Hsplit).
    exists seg0, seg1, rest. split; [done|]. simpl.
    rewrite phrase_pair_spec by done. unfold spec_phrase_pair. rewrite Hsplit.
    split.
    + intros Hz. by rewrite decide_True.
    + intros Hz. rewrite decide_False by done.
      eexists _, _. split; [reflexivity|]. split.
      * apply np_rows_gather. eapply Forall_impl;
          [apply (lookup_ids_range sVocab sEmbeddings seg0 Hs)|]. simpl. lia.
      * apply np_rows_gather. eapply Forall_impl;
          [apply (lookup_ids_range tVocab tEmbeddings seg1 Ht)|]. simpl. lia.
Qed.

Lemma phrase_pair_no_delimiter sVocab tVocab sEmb tEmb line :
  contains "|||" line = false →
  phrase_pair sVocab tVocab sEmb tEmb line = Raise IndexError.
Proof.
  intros Hc. unfold phrase_pair. rewrite (split_bars_no_delimiter line Hc).
  by destruct (split_bars (strip line) !! 0%nat).
Qed.

Lemma phrase_pairs_from_no_delimiter sVocab tVocab sEmb tEmb line tTable :
  ∀ phrasePairs,
  line ∈ tTable → contains "|||" line = false →
  phrase_pairs_from sVocab tVocab sEmb tEmb phrasePairs tTable = Raise IndexError.
Proof.
  induction tTable as [|l tTable IH]; intros acc Hin Hc.
  - by apply elem_of_nil in Hin.
  - simpl phrase_pairs_from. apply elem_of_cons in Hin as [<-|Hin].
    + by rewrite phrase_pair_no_delimiter.
    + destruct (phrase_pair_outcome sVocab tVocab sEmb tEmb l) as [[p ->]| ->];
        [|done]. simpl. by apply IH.
Qed.

(** C10: a line without the delimiter makes the loop body raise
    [IndexError], and a table that holds such a line makes
    [getPhrasePairs] raise it too: the line is not skipped and no list
    of pairs is returned. *)
Theorem getPhrasePairs_no_delimiter tTable line sVocab tVocab
    sEmbeddings tEmbeddings :
  line ∈ tTable →
  contains "|||" line = false →
  phrase_pair sVocab tVocab sEmbeddings tEmbeddings line = Raise IndexError ∧
  getPhrasePairs tTable sVocab tVocab sEmbeddings tEmbeddings = Raise IndexError.
Proof.
  intros Hin Hc. split; [by apply phrase_pair_no_delimiter|].
  by eapply phrase_pairs_from_no_delimiter.
Qed.

(** The end-to-end scenario of the phrase table: no token of the line is
    known, the ids are [0, 0] and [0], and the line gives no pair. *)
Example phrase_pair_scenario :
  phrase_ids sVocab_example "x y " = [0; 0] ∧
  phrase_ids tVocab_example " z" = [0] ∧
  phrase_pair sVocab_example tVocab_example sEmb_example tEmb_example "x y ||| z"
  = Ok None.
Proof. by vm_compute. Qed.

Example phrase_pair_empty_line :
  phrase_pair sVocab_example tVocab_example sEmb_example tEmb_example ""
  = Raise IndexError.
Proof. by vm_compute. Qed.

Lemma sVocab_example_fits : vocab_fits sVocab_example sEmb_example.
Proof.
  split; [simpl; lia|].
  repeat (apply map_Forall_insert_2; [simpl; lia|]). apply map_Forall_empty.
Qed.

Lemma tVocab_example_fits : vocab_fits tVocab_example tEmb_example.
Proof.
  split; [simpl; lia|].
  repeat (apply map_Forall_insert_2; [simpl; lia|]). apply map_Forall_empty.
Qed.

(** C5 at [table_example]: only the first line gives a triple. *)
Lemma getPhrasePairs_spec_witness :
  getPhrasePairs table_example sVocab_example tVocab_example
    sEmb_example tEmb_example
  = Ok [([[11]; [10]], [[21]], [1])].
Proof.
  destruct (getPhrasePairs_spec table_example sVocab_example tVocab_example
    sEmb_example tEmb_example) as [H _].
  - apply sVocab_example_fits.
  - apply tVocab_example_fits.
  - repeat (constructor; [split; [reflexivity|]; repeat constructor|]).
    constructor.
  - rewrite H. vm_compute. reflexivity.
Defined.

(** C10 at a table whose second line has no delimiter. *)
Lemma getPhrasePairs_no_delimiter_witness :
  getPhrasePairs ["a ||| c"; "a c"; "b ||| c"] sVocab_example tVocab_example
    sEmb_example tEmb_example
  = Raise IndexError.
Proof.
  apply (getPhrasePairs_no_delimiter _ "a c").
  - rewrite !elem_of_cons. auto.
  - reflexivity.
Defined.

(** ** Partitioner *)

Section PartitionerFacts.
Variable rng : Type.
Variable rng_seed : Z → rng.
Variable rng_bits : rng → Z * rng.

(** [random.random()] lies in [0, 1). *)
Lemma random_random_range g :
  (0 <= (random_random rng rng_bits g).1 ∧ (random_random rng rng_bits g).1 < 1)%Q.
Proof.
  unfold random_random. destruct (rng_bits g) as [b g']. simpl.
  pose proof (Z.mod_pos_bound b (2 ^ 53) eq_refl) as Hb.
  unfold Qle, Qlt. simpl Qnum. simpl Qden.
  split; [lia|]. rewrite Z.mul_1_l, Z.mul_1_r. exact (proj2 Hb).
Qed.

(** The index drawn for position [k] lies in [0, k]. *)
Lemma shuffle_index (r : Q) (k : nat) :
  (0 <= r)%Q → (r < 1)%Q →
  0 ≤ Qfloor (r * inject_Z (Z.of_nat k + 1)) ≤ Z.of_nat k.
Proof.
  intros H0 H1.
  assert (0 < inject_Z (Z.of_nat k + 1))%Q as Hk.
  { change 0%Q with (inject_Z 0). rewrite <-Zlt_Qlt. lia. }
  split.
  - rewrite <-(Qfloor_Z 0). apply Qfloor_resp_le.
    change (inject_Z 0) with 0%Q. apply Qmult_le_0_compat; [done|].
    by apply Qlt_le_weak.
  - assert (Qfloor (r * inject_Z (Z.of_nat k + 1)) < Z.of_nat k + 1); [|lia].
    rewrite Zlt_Qlt. eapply Qle_lt_trans; [apply Qfloor_le|].
    rewrite <-(Qmult_1_l (inject_Z (Z.of_nat k + 1))) at 2.
    by apply Qmult_lt_compat_r.
Qed.

Lemma swap_perm {A} (x : list A) (i j : nat) :
  (i < length x)%nat → (j < length x)%nat →
  ∃ x', swap x i j = Ok x' ∧ x' ≡ₚ x.
Proof.
  intros Hi Hj. unfold swap.
  destruct (lookup_lt_is_Some_2 x i Hi) as [xi Exi].
  destruct (lookup_lt_is_Some_2 x j Hj) as [xj Exj].
  rewrite Exi, Exj. simpl. eexists. split; [done|].
  by apply Permutation_insert_swap.
Qed.

Lemma shuffle_from_S {A} (k : nat) (x : list A) g :
  shuffle_from rng rng_bits (S k) x g
  = swap x (S k) (Z.to_nat (Qfloor ((random_random rng rng_bits g).1
                                     * inject_Z (Z.of_nat (S k) + 1))))
    ≫= λ x', shuffle_from rng rng_bits k x' (random_random rng rng_bits g).2.
Proof. unfold shuffle_from at 1. by destruct (random_random rng rng_bits g). Qed.

Lemma shuffle_from_perm {A} (k : nat) : ∀ (x : list A) g,
  (k < length x)%nat ∨ k = 0%nat →
  ∃ x' g', shuffle_from rng rng_bits k x g = Ok (x', g') ∧ x' ≡ₚ x.
Proof.
  induction k as [|k IH]; intros x g Hk; [by eexists _, _|].
  destruct Hk as [Hk|?]; [|done]. rewrite shuffle_from_S.
  pose proof (random_random_range g) as [H0 H1].
  pose proof (shuffle_index _ (S k) H0 H1) as Hj.
  destruct (swap_perm x (S k) (Z.to_nat (Qfloor ((random_random rng rng_bits g).1
    * inject_Z (Z.of_nat (S k) + 1))))) as (x1 & -> & Hp1); [done|lia|].
  simpl. destruct (IH x1 (random_random rng rng_bits g).2) as (x' & g' & -> & Hp).
  { left. rewrite Hp1. lia. }
  exists x', g'. split; [done|]. by rewrite Hp.
Qed.

Lemma shuffle_perm {A} (l : list A) seed g :
  ∃ l' g', shuffle rng rng_seed rng_bits l seed g = Ok (l', g') ∧ l' ≡ₚ l.
Proof.
  unfold shuffle. apply shuffle_from_perm.
  destruct l; simpl; [by right|left; lia].
Qed.

(** The generator in use before the call does not matter. *)
Lemma shuffle_reseeds {A} (l : list A) seed g g' :
  shuffle rng rng_seed rng_bits l seed g = shuffle rng rng_seed rng_bits l seed g'.
Proof. done. Qed.

Lemma split_point_floor n : Z.to_nat (split_point n) = (4 * n / 5)%nat.
Proof.
  unfold split_point, Qfloor, Qmult, inject_Z. simpl Qnum. simpl Qden.
  change (Z.pos (10 * 1)) with (2 * 5). replace (8 * Z.of_nat n) with (2 * (4 * Z.of_nat n)) by lia.
  rewrite Z.div_mul_cancel_l by lia.
  rewrite <-(Nat2Z.id (4 * n / 5)). f_equal.
  rewrite Nat2Z.inj_div, Nat2Z.inj_mul. done.
Qed.

Lemma split_point_nonneg n : 0 ≤ split_point n.
Proof.
  unfold split_point. rewrite <-(Qfloor_Z 0). apply Qfloor_resp_le.
  change (inject_Z 0) with 0%Q. apply Qmult_le_0_compat; [done|].
  change 0%Q with (inject_Z 0). rewrite <-Zle_Qle. lia.
Qed.

(** C4: [getPartitions] returns whatever the generator did before the
    call, and two calls with the same seed on the same list return the
    same split; the list is permuted, the training set is the first
    floor(0.8 N) elements of the permuted list and the validation set
    the remaining N - floor(0.8 N), so that the two, one after the
    other, are the permuted list; an empty list gives two empty sets. *)
Theorem getPartitions_spec {A} (phrasePairs : list A) (seed : Z) (g g' : rng) :
  ∃ shuffled g1 trainSet devSet,
    getPartitions rng rng_seed rng_bits phrasePairs seed g
      = Ok (shuffled, g1, (trainSet, devSet)) ∧
    getPartitions rng rng_seed rng_bits phrasePairs seed g'
      = Ok (shuffled, g1, (trainSet, devSet)) ∧
    shuffled ≡ₚ phrasePairs ∧
    trainSet = take (4 * length phrasePairs / 5) shuffled ∧
    devSet = drop (4 * length phrasePairs / 5) shuffled ∧
    length trainSet = (4 * length phrasePairs / 5)%nat ∧
    length devSet = (length phrasePairs - 4 * length phrasePairs / 5)%nat ∧
    trainSet ++ devSet = shuffled ∧
    (phrasePairs = [] → trainSet = [] ∧ devSet = []).
Proof.
  destruct (shuffle_perm phrasePairs seed g) as (l' & g1 & Hs & Hp).
  assert (length l' = length phrasePairs) as Hlen by by rewrite Hp.
  assert (4 * length phrasePairs / 5 ≤ length phrasePairs)%nat as Hle.
  { apply Nat.Div0.div_le_upper_bound; lia. }
  exists l', g1, (take (4 * length phrasePairs / 5) l'),
    (drop (4 * length phrasePairs / 5) l').
  assert (getPartitions rng rng_seed rng_bits phrasePairs seed g
          = Ok (l', g1, (take (4 * length phrasePairs / 5) l',
                         drop (4 * length phrasePairs / 5) l'))) as Hrun.
  { unfold getPartitions. rewrite Hs. simpl.
    unfold slice_to, slice_from.
    rewrite !decide_True by apply split_point_nonneg.
    by rewrite split_point_floor, Hlen. }
  split; [done|]. split.
  { unfold getPartitions in *. by rewrite (shuffle_reseeds _ _ g' g). }
  split; [done|]. split; [done|]. split; [done|].
  split; [rewrite length_take; lia|].
  split; [rewrite length_drop; lia|].
  split; [apply take_drop|].
  intros ->. apply Permutation_nil_r in Hp as ->. done.
Qed.
End PartitionerFacts.

(** ** TrainingLoop and ModelCheckpointer *)

(** [<] on floats is a strict order in which NaN is below and above
    nothing, and every two floats that are not NaN compare. *)
Lemma float_lt_irrefl (x : float) : float_lt x x = false.
Proof.
  destruct x as [a| | |]; simpl; try done.
  destruct (Qlt_le_dec a a) as [H|]; [|done]. by apply Qlt_irrefl in H.
Qed.

Lemma float_lt_trans (x y z : float) :
  float_lt x y = true → float_lt y z = true → float_lt x z = true.
Proof.
  destruct x as [a| | |], y as [b| | |], z as [d| | |]; simpl; try done.
  destruct (Qlt_le_dec a b) as [Hab|]; [|done].
  destruct (Qlt_le_dec b d) as [Hbd|]; [|done]. intros _ _.
  destruct (Qlt_le_dec a d) as [|Hda]; [done|]. exfalso.
  apply (Qlt_not_le a d); [|done]. by apply Qlt_trans with b.
Qed.

Lemma float_lt_le_trans (x y z : float) :
  float_lt x y = true → float_lt z y = false → z ≠ NaN → float_lt x z = true.
Proof.
  destruct x as [a| | |], y as [b| | |], z as [d| | |]; simpl; try done.
  destruct (Qlt_le_dec a b) as [Hab|]; [|done].
  destruct (Qlt_le_dec d b) as [|Hbd]; [done|]. intros _ _ _.
  destruct (Qlt_le_dec a d) as [|Hda]; [done|]. exfalso.
  apply (Qlt_not_le a d); [|done]. by apply Qlt_le_trans with b.
Qed.

Lemma float_lt_not_NaN (x y : float) : float_lt x y = true → x ≠ NaN ∧ y ≠ NaN.
Proof. by destruct x, y. Qed.

Lemma float_NaN_dec (x : float) : x = NaN ∨ x ≠ NaN.
Proof. destruct x; auto. Qed.

(** Below [np.inf] are the numbers and [-inf]. *)
Lemma float_lt_PosInf (x : float) :
  float_lt x PosInf = true ↔ x ≠ PosInf ∧ x ≠ NaN.
Proof. destruct x; simpl; split; try done; by intros []. Qed.

Section TrainingFacts.
Context {rng model : Type}.
Variable rng_seed : Z → rng.
Variable rng_bits : rng → Z * rng.
Variable rnn_train : model → list example → Q → model.
Variable rnn_test : model → list example → float.

Local Notation epoch := (epoch rng_seed rng_bits rnn_train rnn_test).
Local Notation epoch_dev_nll := (epoch_dev_nll rng_seed rng_bits rnn_train rnn_test).
Local Notation epochs := (epochs rng_seed rng_bits rnn_train rnn_test).
Local Notation epochs_history := (epochs_history rng_seed rng_bits rnn_train rnn_test).
Local Notation training := (training rng_seed rng_bits rnn_train rnn_test).
Local Notation training_history := (training_history rng_seed rng_bits rnn_train rnn_test).
Local Notation dev_nll_of := (dev_nll_of rnn_test).
Local Notation session := (session rng model).

Lemma minibatch_returns {A} (l : list A) (bs : Z) :
  bs ≠ 0 → ∃ bl, minibatch l bs = Ok bl.
Proof.
  intros Hbs. unfold minibatch. rewrite decide_False by done.
  case_decide; by eexists.
Qed.

(** The loss of an epoch is measured whenever the mini-batch size is not
    0, whatever the session. *)
Lemma epoch_dev_nll_returns (c : setup) (prev : session) :
  bs (s c) ≠ 0 → ∃ d, epoch_dev_nll c prev = Ok d.
Proof.
  intros Hbs. unfold epoch_dev_nll.
  destruct (shuffle_perm rng rng_seed rng_bits (train prev) (seed (s c)) (gen prev))
    as (train' & g' & -> & _). simpl.
  destruct (minibatch_returns train' _ Hbs) as [bl ->]. simpl. by eexists.
Qed.

(** What one epoch leaves behind. *)
Lemma epoch_inv (c : setup) (e : Z) (prev st : session) :
  epoch c e prev = Ok st →
  epoch_dev_nll c prev = Ok (dev_nll_of c st) ∧
  ce st = Some e ∧
  (lt_best (dev_nll_of c st) (best_dev_nll prev) = true →
   best_dev_nll st = dev_nll_of c st ∧ be st = Some e ∧
   files st = saveModel (outDir c) (s2idx c) (t2idx c) (sEmbeddings c)
                (tEmbeddings c) (rnn st) (files prev)) ∧
  (lt_best (dev_nll_of c st) (best_dev_nll prev) = false →
   best_dev_nll st = best_dev_nll prev ∧ be st = be prev ∧
   files st = files prev) ∧
  ∃ b, be st = Some b ∧
    clr st = if decide (3 ≤ Z.abs (b - e)) then (clr prev * (1 # 2))%Q else clr prev.
Proof.
  unfold epoch, epoch_dev_nll, dev_nll_of.
  destruct (shuffle rng rng_seed rng_bits (train prev) (seed (s c)) (gen prev))
    as [[train' g']| |]; simpl; [|done..].
  destruct (minibatch train' (bs (s c))) as [bl| |]; simpl; [|done..].
  destruct (lt_best _ (best_dev_nll prev)) eqn:Hlt; simpl.
  - intros [= <-]. simpl. rewrite Hlt. split; [done|]. split; [done|].
    split; [done|]. split; [done|]. by eexists.
  - destruct (be prev) as [b|] eqn:Hbe; simpl; [|done].
    intros [= <-]. simpl. rewrite Hlt. split; [done|]. split; [done|].
    split; [done|]. split; [done|]. by eexists.
Qed.

(** An epoch returns when [s['be']] is set at its start, or when its
    loss is below the best loss, so that it sets [s['be']] itself. *)
Lemma epoch_returns (c : setup) (e : Z) (prev : session) (d : float) :
  epoch_dev_nll c prev = Ok d →
  is_Some (be prev) ∨ lt_best d (best_dev_nll prev) = true →
  ∃ st, epoch c e prev = Ok st.
Proof.
  unfold epoch, epoch_dev_nll.
  destruct (shuffle rng rng_seed rng_bits (train prev) (seed (s c)) (gen prev))
    as [[train' g']| |]; simpl; [|done..].
  destruct (minibatch train' (bs (s c))) as [bl| |]; simpl; [|done..].
  intros [= <-] [[b Hb]| ->]; simpl; [|by eexists].
  destruct (lt_best _ _); simpl; [by eexists|]. rewrite Hb. simpl. by eexists.
Qed.

(** The defect of line 285: an epoch that starts with no [s['be']] and
    whose loss is not below the best loss reads the missing entry. *)
Lemma epoch_raises (c : setup) (e : Z) (prev : session) (d : float) :
  epoch_dev_nll c prev = Ok d →
  be prev = None → lt_best d (best_dev_nll prev) = false →
  epoch c e prev = Raise KeyError.
Proof.
  unfold epoch, epoch_dev_nll.
  destruct (shuffle rng rng_seed rng_bits (train prev) (seed (s c)) (gen prev))
    as [[train' g']| |]; simpl; [|done..].
  destruct (minibatch train' (bs (s c))) as [bl| |]; simpl; [|done..].
  intros [= <-] Hbe ->. simpl. by rewrite Hbe.
Qed.

(** The loop raises [KeyError] in its first epoch when the first loss is
    not below [np.inf]: when it is [np.inf] or NaN. *)
Lemma training_raises (c : setup) (rnn0 : model) (train0 : list example)
    (g : rng) (fs : gmap string (bundle model)) (d : float) :
  epoch_dev_nll c (session_init c rnn0 train0 g fs) = Ok d →
  0 < nepochs (s c) → float_lt d PosInf = false →
  training c rnn0 train0 g fs = Raise KeyError ∧
  training_history c rnn0 train0 g fs = Raise KeyError.
Proof.
  intros Hd Hn Hlt. unfold training, training_history, xrange.
  destruct (Z.to_nat (nepochs (s c))) as [|n] eqn:Hnat; [lia|].
  rewrite <-cons_seq, fmap_cons. simpl.
  by rewrite (epoch_raises c _ _ d Hd).
Qed.

Lemma default_last_cons {A} (x y : A) l :
  default x (last (y :: l)) = default y (last l).
Proof. rewrite last_cons. by destruct (last l). Qed.

(** The loop over the epochs [a, a + n), started where its first epoch
    cannot hit an unset [s['be']]: it returns, each session of the
    history is the outcome of [epoch] on the one before, only the last
    one can satisfy the stop test, and the history is shorter than [n]
    only when it does. *)
Lemma epochs_history_chain (c : setup) (n : nat) : ∀ (a : nat) (st0 : session),
  bs (s c) ≠ 0 →
  n = 0%nat ∨ is_Some (be st0) ∨
    (∃ d, epoch_dev_nll c st0 = Ok d ∧ lt_best d (best_dev_nll st0) = true) →
  ∃ h,
    epochs_history c (Z.of_nat <$> seq a n) st0 = Ok h ∧
    epochs c (Z.of_nat <$> seq a n) st0 = Ok (default st0 (last h)) ∧
    (length h ≤ n)%nat ∧
    (∀ (k : nat) prev st, (st0 :: h) !! k = Some prev → h !! k = Some st →
       epoch c (Z.of_nat (a + k)) prev = Ok st) ∧
    (∀ (k : nat) st, h !! k = Some st → (S k < length h)%nat → stops st = false) ∧
    (length h = n ∨ ∃ st, last h = Some st ∧ stops st = true) ∧
    (n ≠ 0%nat → h ≠ []).
Proof.
  induction n as [|n IH]; intros a st0 Hbs Hbe.
  - exists []. simpl. repeat split; try done; auto.
  - destruct (epoch_dev_nll_returns c st0 Hbs) as [d Hd].
    destruct (epoch_returns c (Z.of_nat a) st0 d Hd) as [st1 Hst1].
    { destruct Hbe as [?|[?|(d' & Hd' & Hlt)]]; [done|by left|right].
      rewrite Hd in Hd'. by injection Hd' as ->. }
    destruct (epoch_inv c _ _ _ Hst1) as (_ & _ & _ & _ & b & Hb & _).
    rewrite <-cons_seq, fmap_cons. simpl. rewrite Hst1. simpl.
    destruct (stops st1) eqn:Hstop.
    + exists [st1]. simpl. split; [done|]. split; [done|]. split; [lia|].
      split; [|split; [|split]].
      * intros [|k] prev st; simpl; [|by rewrite lookup_nil].
        intros [= <-] [= <-]. by rewrite Nat.add_0_r.
      * intros k st _ Hk. simpl in Hk. lia.
      * right. by exists st1.
      * done.
    + destruct (IH (S a) st1 Hbs) as (h & -> & -> & Hlen & Hchain & Hstops & Hend & _).
      { right. left. by eexists. }
      exists (st1 :: h). simpl. split; [done|]. split.
      { by rewrite default_last_cons. }
      split; [lia|]. split; [|split; [|split]].
      * intros [|k] prev st; simpl.
        -- intros [= <-] [= <-]. by rewrite Nat.add_0_r.
        -- intros Hp Hs. replace (a + S k)%nat with (S a + k)%nat by lia.
           by apply Hchain.
      * intros [|k] st; simpl.
        -- by intros [= <-] _.
        -- intros Hs Hk. apply (Hstops k); [done|lia].
      * destruct Hend as [->|(st & Hl & Hs)]; [by left|right].
        exists st. split; [|done]. rewrite last_cons. by rewrite Hl.
      * done.
Qed.

(** The whole loop, when no epoch is to run or the first loss is below
    [np.inf]. *)
Lemma training_chain (c : setup) (rnn0 : model) (train0 : list example)
    (g : rng) (fs : gmap string (bundle model)) (d : float) :
  bs (s c) ≠ 0 →
  epoch_dev_nll c (session_init c rnn0 train0 g fs) = Ok d →
  nepochs (s c) ≤ 0 ∨ float_lt d PosInf = true →
  ∃ h,
    training_history c rnn0 train0 g fs = Ok h ∧
    training c rnn0 train0 g fs
      = Ok (default (session_init c rnn0 train0 g fs) (last h)) ∧
    (length h ≤ Z.to_nat (nepochs (s c)))%nat ∧
    (∀ (k : nat) prev st,
       (session_init c rnn0 train0 g fs :: h) !! k = Some prev →
       h !! k = Some st → epoch c (Z.of_nat k) prev = Ok st) ∧
    (∀ (k : nat) st, h !! k = Some st → (S k < length h)%nat → stops st = false) ∧
    (length h = Z.to_nat (nepochs (s c)) ∨
     ∃ st, last h = Some st ∧ stops st = true) ∧
    (0 < nepochs (s c) → h ≠ []).
Proof.
  intros Hbs Hd Hok.
  destruct (epochs_history_chain c (Z.to_nat (nepochs (s c))) 0
    (session_init c rnn0 train0 g fs) Hbs)
    as (h & Hh & Hrun & Hlen & Hchain & Hstops & Hend & Hne).
  { destruct Hok as [Hn|Hlt]; [left; lia|right; right; by exists d]. }
  exists h. repeat (split; [done|]). intros Hn. apply Hne. lia.
Qed.

Lemma stops_true (st : session) : stops st = true → (clr st < 1 # 100000)%Q.
Proof. unfold stops. by destruct (Qlt_le_dec _ _). Qed.

Lemma stops_false (st : session) : stops st = false → (1 # 100000 <= clr st)%Q.
Proof. unfold stops. by destruct (Qlt_le_dec _ _). Qed.

(** The best epoch so far: at the end of epoch [k] of a history started
    with the best loss at [np.inf], [s['be']] is an epoch [b] among
    0 .. k whose loss is below [np.inf], the best loss is that loss, the
    best slot holds the bundle written at [b], no loss of the epochs
    0 .. k is lower, and every loss before [b] is NaN or higher. *)
Lemma best_epoch_inv (c : setup) (st0 : session) (h : list session) :
  best_dev_nll st0 = PosInf → be st0 = None →
  (∀ (k : nat) prev st, (st0 :: h) !! k = Some prev → h !! k = Some st →
     epoch c (Z.of_nat k) prev = Ok st) →
  ∀ (k : nat) st, h !! k = Some st →
    ∃ (b : nat) st_b,
      (b ≤ k)%nat ∧ h !! b = Some st_b ∧
      be st = Some (Z.of_nat b) ∧
      best_dev_nll st = dev_nll_of c st_b ∧
      files st !! best_mdl (outDir c)
        = Some (Build_bundle (s2idx c) (t2idx c) (sEmbeddings c)
                  (tEmbeddings c) (rnn st_b)) ∧
      float_lt (dev_nll_of c st_b) PosInf = true ∧
      (∀ (j : nat) st_j, (j ≤ k)%nat → h !! j = Some st_j →
         float_lt (dev_nll_of c st_j) (dev_nll_of c st_b) = false) ∧
      (∀ (j : nat) st_j, (j < b)%nat → h !! j = Some st_j →
         dev_nll_of c st_j = NaN ∨
         float_lt (dev_nll_of c st_b) (dev_nll_of c st_j) = true).
Proof.
  intros Hinf Hnone Hchain. induction k as [|k IH]; intros st Hs.
  - destruct (epoch_inv c _ _ _ (Hchain 0%nat st0 st eq_refl Hs))
      as (_ & _ & Himp & Hsame & b & Hb & _).
    rewrite Hinf in Himp, Hsame. unfold lt_best in Himp, Hsame.
    destruct (float_lt (dev_nll_of c st) PosInf) eqn:Hlt.
    + destruct (Himp eq_refl) as (Hbest & Hbe & Hfiles).
      exists 0%nat, st. split; [done|]. split; [done|]. split; [done|].
      split; [done|]. split; [|split; [done|split]].
      * rewrite Hfiles. unfold saveModel. by rewrite lookup_insert_eq.
      * intros j st_j Hj Hsj. assert (j = 0%nat) as -> by lia.
        rewrite Hs in Hsj. injection Hsj as <-. apply float_lt_irrefl.
      * intros j st_j Hj. lia.
    + destruct (Hsame eq_refl) as (_ & Hbe & _). congruence.
  - destruct (lookup_lt_is_Some_2 h k) as [prev Hp].
    { apply lookup_lt_Some in Hs. lia. }
    destruct (IH prev Hp)
      as (b & st_b & Hbk & Hsb & Hbe & Hbest & Hfiles & Hfin & Hle & Hlt).
    destruct (epoch_inv c _ _ _ (Hchain (S k) prev st Hp Hs))
      as (_ & _ & Himp & Hsame & _).
    rewrite Hbest in Himp, Hsame. unfold lt_best in Himp, Hsame.
    destruct (float_lt (dev_nll_of c st) (dev_nll_of c st_b)) eqn:Hcmp.
    + destruct (Himp eq_refl) as (Hbest' & Hbe' & Hfiles').
      exists (S k), st. split; [done|]. split; [done|]. split; [done|].
      split; [done|]. split; [|split; [|split]].
      * rewrite Hfiles'. unfold saveModel. by rewrite lookup_insert_eq.
      * by apply float_lt_trans with (dev_nll_of c st_b).
      * intros j st_j Hj Hsj. destruct (decide (j = S k)) as [->|Hne].
        -- rewrite Hs in Hsj. injection Hsj as <-. apply float_lt_irrefl.
        -- destruct (float_lt (dev_nll_of c st_j) (dev_nll_of c st)) eqn:Hj'; [|done].
           rewrite <-(Hle j st_j); [|lia|done]. symmetry.
           by apply float_lt_trans with (dev_nll_of c st).
      * intros j st_j Hj Hsj.
        destruct (float_NaN_dec (dev_nll_of c st_j)) as [|Hnan]; [by left|right].
        apply float_lt_le_trans with (dev_nll_of c st_b); [done| |done].
        apply (Hle j); [lia|done].
    + destruct (Hsame eq_refl) as (Hbest' & Hbe' & Hfiles').
      exists b, st_b. split; [lia|]. split; [done|].
      split; [by rewrite Hbe'|]. split; [by rewrite Hbest'|].
      split; [by rewrite Hfiles'|]. split; [done|]. split; [|done].
      intros j st_j Hj Hsj. destruct (decide (j = S k)) as [->|Hne].
      * rewrite Hs in Hsj. by injection Hsj as <-.
      * apply (Hle j); [lia|done].
Qed.

(** Whether an epoch writes a checkpoint: exactly when its loss is below
    every earlier loss that is not NaN. *)
Lemma improves_iff (c : setup) (st0 : session) (h : list session) :
  best_dev_nll st0 = PosInf → be st0 = None →
  (∀ (k : nat) prev st, (st0 :: h) !! k = Some prev → h !! k = Some st →
     epoch c (Z.of_nat k) prev = Ok st) →
  ∀ (k : nat) prev st, (st0 :: h) !! k = Some prev → h !! k = Some st →
    lt_best (dev_nll_of c st) (best_dev_nll prev) = true ↔
    ∀ (j : nat) st_j, (j < k)%nat → h !! j = Some st_j →
      dev_nll_of c st_j = NaN ∨
      float_lt (dev_nll_of c st) (dev_nll_of c st_j) = true.
Proof.
  intros Hinf Hnone Hchain [|k] prev st Hp Hs.
  - injection Hp as <-. split; [intros _ j st_j Hj; lia|]. intros _.
    destruct (epoch_inv c _ _ _ (Hchain 0%nat st0 st eq_refl Hs))
      as (_ & _ & _ & Hsame & b & Hb & _).
    destruct (lt_best _ _); [done|].
    destruct (Hsame eq_refl) as (_ & Hbe & _). congruence.
  - simpl in Hp.
    destruct (best_epoch_inv c st0 h Hinf Hnone Hchain k prev Hp)
      as (b & st_b & Hbk & Hsb & _ & -> & _ & Hfin & Hle & _).
    unfold lt_best. split.
    + intros Hcmp j st_j Hj Hsj.
      destruct (float_NaN_dec (dev_nll_of c st_j)) as [|Hnan]; [by left|right].
      apply float_lt_le_trans with (dev_nll_of c st_b); [done| |done].
      apply (Hle j); [lia|done].
    + intros Hall. destruct (Hall b st_b) as [Hnan|]; [lia|done| |done].
      rewrite Hnan in Hfin. done.
Qed.

(** C3: with a mini-batch size other than 0 the first epoch measures a
    loss [d0].  When an epoch is to run and [d0] is not below [np.inf]
    (it is [np.inf] or NaN), [s['be']] is read unset and the loop raises
    [KeyError]: it neither halves the rate nor stops in one of the two
    ways below.
    In every other run the loop returns, after at most [nepochs] epochs.
    At the end of every epoch [k] that it runs, improved or not,
    [s['be']] is set and the learning rate is half the rate of the
    epoch's start when [abs(be - k) >= 3], and unchanged otherwise.  The
    rate is below 1e-5 at the end of no epoch but possibly the last, and
    the loop runs fewer than [nepochs] epochs only when the rate is
    below 1e-5 at the end of the last one. *)
Theorem training_decay_and_stop (c : setup) (rnn0 : model)
    (train0 : list example) (g : rng) (fs : gmap string (bundle model)) :
  bs (s c) ≠ 0 →
  ∃ d0,
    epoch_dev_nll c (session_init c rnn0 train0 g fs) = Ok d0 ∧
    (0 < nepochs (s c) → float_lt d0 PosInf = false →
     training c rnn0 train0 g fs = Raise KeyError) ∧
    (nepochs (s c) ≤ 0 ∨ float_lt d0 PosInf = true →
     ∃ h,
       training_history c rnn0 train0 g fs = Ok h ∧
       training c rnn0 train0 g fs
         = Ok (default (session_init c rnn0 train0 g fs) (last h)) ∧
       (length h ≤ Z.to_nat (nepochs (s c)))%nat ∧
       (∀ (k : nat) prev st,
          (session_init c rnn0 train0 g fs :: h) !! k = Some prev →
          h !! k = Some st →
          ce st = Some (Z.of_nat k) ∧
          ∃ b, be st = Some b ∧
            clr st = if decide (3 ≤ Z.abs (b - Z.of_nat k))
                     then (clr prev * (1 # 2))%Q else clr prev) ∧
       (∀ (k : nat) st, h !! k = Some st → (S k < length h)%nat →
          (1 # 100000 <= clr st)%Q) ∧
       (length h = Z.to_nat (nepochs (s c)) ∨
        ∃ st, last h = Some st ∧ (clr st < 1 # 100000)%Q)).
Proof.
  intros Hbs.
  destruct (epoch_dev_nll_returns c (session_init c rnn0 train0 g fs) Hbs)
    as [d0 Hd]. exists d0. split; [done|]. split.
  { intros Hn Hlt. by apply (training_raises c rnn0 train0 g fs d0). }
  intros Hok.
  destruct (training_chain c rnn0 train0 g fs d0 Hbs Hd Hok)
    as (h & Hh & Hrun & Hlen & Hchain & Hstops & Hend & _).
  exists h. split; [done|]. split; [done|]. split; [done|].
  split; [|split].
  - intros k prev st Hp Hs.
    destruct (epoch_inv c _ _ _ (Hchain k prev st Hp Hs)) as (_ & Hce & _ & _ & Hb).
    done.
  - intros k st Hs Hk. by apply stops_false, (Hstops k).
  - destruct Hend as [?|(st & Hl & Hs)]; [by left|right].
    exists st. split; [done|]. by apply stops_true.
Qed.

(** C1: with a mini-batch size other than 0 the first epoch measures a
    loss [d0].  When an epoch is to run and [d0] is not below [np.inf]
    (it is [np.inf] or NaN), the first epoch writes no checkpoint,
    although no earlier loss is lower, and the loop raises [KeyError] at
    line 285.  In every other run the loop returns.  An epoch calls
    [saveModel] when its validation loss is below every earlier loss
    that is a number or an infinity, and leaves the model files alone
    when it is not.  So, once an epoch has run, the best slot holds at
    the end the bundle written at the epoch [b] whose loss no loss of
    the run is below, and the first such: no later epoch with an equal
    or higher loss has written over it. *)
Theorem training_best_checkpoint (c : setup) (rnn0 : model)
    (train0 : list example) (g : rng) (fs : gmap string (bundle model)) :
  bs (s c) ≠ 0 →
  ∃ d0,
    epoch_dev_nll c (session_init c rnn0 train0 g fs) = Ok d0 ∧
    (0 < nepochs (s c) → float_lt d0 PosInf = false →
     training c rnn0 train0 g fs = Raise KeyError) ∧
    (nepochs (s c) ≤ 0 ∨ float_lt d0 PosInf = true →
     ∃ h final,
       training_history c rnn0 train0 g fs = Ok h ∧
       training c rnn0 train0 g fs = Ok final ∧
       (0 < nepochs (s c) → h ≠ []) ∧
       (∀ (k : nat) prev st,
          (session_init c rnn0 train0 g fs :: h) !! k = Some prev →
          h !! k = Some st →
          let lower := ∀ (j : nat) st_j, (j < k)%nat → h !! j = Some st_j →
                         dev_nll_of c st_j = NaN ∨
                         float_lt (dev_nll_of c st) (dev_nll_of c st_j) = true in
          (lower →
           files st = saveModel (outDir c) (s2idx c) (t2idx c) (sEmbeddings c)
                        (tEmbeddings c) (rnn st) (files prev)) ∧
          (¬ lower → files st = files prev)) ∧
       (h ≠ [] →
        ∃ (b : nat) st_b,
          h !! b = Some st_b ∧
          be final = Some (Z.of_nat b) ∧
          best_dev_nll final = dev_nll_of c st_b ∧
          files final !! best_mdl (outDir c)
            = Some (Build_bundle (s2idx c) (t2idx c) (sEmbeddings c)
                      (tEmbeddings c) (rnn st_b)) ∧
          float_lt (dev_nll_of c st_b) PosInf = true ∧
          (∀ (j : nat) st_j, h !! j = Some st_j →
             float_lt (dev_nll_of c st_j) (dev_nll_of c st_b) = false) ∧
          (∀ (j : nat) st_j, (j < b)%nat → h !! j = Some st_j →
             dev_nll_of c st_j = NaN ∨
             float_lt (dev_nll_of c st_b) (dev_nll_of c st_j) = true))).
Proof.
  intros Hbs.
  destruct (epoch_dev_nll_returns c (session_init c rnn0 train0 g fs) Hbs)
    as [d0 Hd]. exists d0. split; [done|]. split.
  { intros Hn Hlt. by apply (training_raises c rnn0 train0 g fs d0). }
  intros Hok.
  destruct (training_chain c rnn0 train0 g fs d0 Hbs Hd Hok)
    as (h & Hh & Hrun & Hlen & Hchain & _ & _ & Hne).
  assert (best_dev_nll (session_init c rnn0 train0 g fs) = PosInf) as Hinf by done.
  assert (be (session_init c rnn0 train0 g fs) = None) as Hnone by done.
  exists h, (default (session_init c rnn0 train0 g fs) (last h)).
  split; [done|]. split; [done|]. split; [done|].
  split.
  - intros k prev st Hp Hs lower. subst lower.
    destruct (epoch_inv c _ _ _ (Hchain k prev st Hp Hs))
      as (_ & _ & Himp & Hsame & _).
    pose proof (improves_iff c _ h Hinf Hnone Hchain k prev st Hp Hs) as Hiff.
    split.
    + intros Hlow. apply Himp. by apply Hiff.
    + intros Hlow. apply Hsame.
      destruct (lt_best (dev_nll_of c st) (best_dev_nll prev)); [|done].
      exfalso. apply Hlow. by apply (proj1 Hiff).
  - intros Hh0. destruct (last h) as [final|] eqn:Hlast;
      [|by apply last_None in Hlast].
    simpl. rewrite last_lookup in Hlast.
    destruct (best_epoch_inv c _ h Hinf Hnone Hchain _ final Hlast)
      as (b & st_b & Hbk & Hsb & Hbe & Hbest & Hfiles & Hfin & Hle & Hlt).
    exists b, st_b. split; [done|]. split; [done|]. split; [done|].
    split; [done|]. split; [done|]. split; [|done].
    intros j st_j Hsj. apply (Hle j); [|done].
    apply lookup_lt_Some in Hsj. lia.
Qed.
End TrainingFacts.

(** C3 at the toy runs.  With the loss of [toy_test]: 25 epochs allowed,
    the loss is lowest at epoch 1, the rate is halved from epoch 4 on
    and the loop stops after epoch 17, the first to end with a rate
    below 1e-5.  With a loss that is NaN the loop raises [KeyError]. *)
Lemma training_decay_and_stop_witness :
  (∃ h,
     training_history toy_seed toy_bits toy_train toy_test toy_setup 0%nat
       toy_train_set 0 ∅ = Ok h ∧
     length h = 18%nat ∧
     (∀ (k : nat) st, h !! k = Some st → (S k < length h)%nat →
        (1 # 100000 <= clr st)%Q) ∧
     ∃ st, last h = Some st ∧ (clr st < 1 # 100000)%Q ∧ be st = Some 1) ∧
  training toy_seed toy_bits toy_train nan_test toy_setup 0%nat
    toy_train_set 0 ∅ = Raise KeyError.
Proof.
  split.
  - destruct (training_decay_and_stop toy_seed toy_bits toy_train toy_test
      toy_setup 0%nat toy_train_set 0 ∅) as (d0 & Hd & _ & Hrun);
      [simpl; lia|].
    destruct Hrun as (h & Hh & _ & Hlen & _ & Hstops & Hend).
    { right. vm_compute in Hd. by injection Hd as <-. }
    exists h. split; [done|].
    assert (∃ h0, training_history toy_seed toy_bits toy_train toy_test
              toy_setup 0%nat toy_train_set 0 ∅ = Ok h0 ∧
              length h0 = 18%nat ∧ (be <$> last h0) = Some (Some 1))
      as (h0 & Hh0 & Hl & Hbe)
      by (eexists; split; [|split]; vm_compute; reflexivity).
    rewrite Hh0 in Hh. injection Hh as <-.
    split; [done|]. split; [done|].
    destruct Hend as [Hfull|(st & Hlast & Hclr)].
    + rewrite Hl in Hfull. vm_compute in Hfull. lia.
    + exists st. split; [done|]. split; [done|].
      rewrite Hlast in Hbe. by injection Hbe.
  - destruct (training_decay_and_stop toy_seed toy_bits toy_train nan_test
      toy_setup 0%nat toy_train_set 0 ∅) as (d0 & Hd & Hraise & _);
      [simpl; lia|].
    apply Hraise; [simpl; lia|].
    vm_compute in Hd. by injection Hd as <-.
Defined.

(** C1 at the toy runs.  With the loss of [toy_test] the best slot ends
    with the model of epoch 1.  With a first loss of [np.inf] the loop
    raises [KeyError] and no checkpoint is written. *)
Lemma training_best_checkpoint_witness :
  (∃ final,
     training toy_seed toy_bits toy_train toy_test toy_setup 0%nat
       toy_train_set 0 ∅ = Ok final ∧
     be final = Some 1 ∧
     b_rnn <$> (files final !! best_mdl "data/1.tiny") = Some 2%nat ∧
     b_rnn <$> (files final !! secondBest_mdl "data/1.tiny") = Some 1%nat) ∧
  training toy_seed toy_bits toy_train inf_test toy_setup 0%nat
    toy_train_set 0 ∅ = Raise KeyError.
Proof.
  split.
  - destruct (training_best_checkpoint toy_seed toy_bits toy_train toy_test
      toy_setup 0%nat toy_train_set 0 ∅) as (d0 & Hd & _ & Hrun);
      [simpl; lia|].
    destruct Hrun as (h & final & _ & Hrun & _).
    { right. vm_compute in Hd. by injection Hd as <-. }
    assert (∃ f0, training toy_seed toy_bits toy_train toy_test
              toy_setup 0%nat toy_train_set 0 ∅ = Ok f0 ∧
              be f0 = Some 1 ∧
              b_rnn <$> (files f0 !! best_mdl "data/1.tiny") = Some 2%nat ∧
              b_rnn <$> (files f0 !! secondBest_mdl "data/1.tiny") = Some 1%nat)
      as (f0 & Hf0 & Hbe & Hbest & Hsecond)
      by (eexists; split; [|split; [|split]]; vm_compute; reflexivity).
    rewrite Hf0 in Hrun. injection Hrun as <-.
    exists f0. split; [exact Hf0|]. split; [exact Hbe|]. split; [exact Hbest|exact Hsecond].
  - destruct (training_best_checkpoint toy_seed toy_bits toy_train inf_test
      toy_setup 0%nat toy_train_set 0 ∅) as (d0 & Hd & Hraise & _);
      [simpl; lia|].
    apply Hraise; [simpl; lia|].
    vm_compute in Hd. by injection Hd as <-.
Defined.

(** A loss of NaN in the middle of a run is passed over: with the losses
    2, NaN, 0, 1, ... the epochs 0 and 2 write the checkpoints, and the
    best slot ends with the model of epoch 2. *)
Example training_skips_NaN :
  ∃ final,
    training toy_seed toy_bits toy_train nan_once_test toy_setup 0%nat
      toy_train_set 0 ∅ = Ok final ∧
    be final = Some 2 ∧ best_dev_nll final = Fin 0 ∧
    b_rnn <$> (files final !! best_mdl "data/1.tiny") = Some 3%nat ∧
    b_rnn <$> (files final !! secondBest_mdl "data/1.tiny") = Some 1%nat.
Proof. eexists. split; [|split; [|split; [|split]]]; vm_compute; reflexivity. Qed.

(** The first loss decides: [np.inf] and NaN are not below [np.inf], and
    the first epoch raises [KeyError] with no checkpoint written. *)
Example training_first_loss_not_below_inf :
  training toy_seed toy_bits toy_train inf_test toy_setup 0%nat
    toy_train_set 0 ∅ = Raise KeyError ∧
  training toy_seed toy_bits toy_train nan_test toy_setup 0%nat
    toy_train_set 0 ∅ = Raise KeyError.
Proof. split; vm_compute; reflexivity. Qed.
